(** * uint1array: a bit-addressable typed array over a shared byte buffer

    Shallow embedding of [src/index.js] (classes [BitDataView] and
    [Uint1Array]) and the properties of its specification.

    Modelling choices.
    - An [ArrayBuffer] is a list of bytes (each a [Z] in [0, 256)); the
      JavaScript heap of buffers is a list of them and a reference to a
      buffer is its index, so that two vectors holding the same index alias
      the same bytes.
    - JavaScript code runs in the monad [JS]: it threads the heap and ends
      either normally or by throwing; a throw keeps the heap as the code
      left it, because JavaScript does not roll writes back.
    - Integer-valued numbers are [Z]; the keys received by the [Proxy]
      handler are rationals ([Q]), so that the handler's
      [Number.isInteger] guard has something to reject. *)

From Stdlib Require Import ZArith QArith Qreduction Lia Permutation Sorted.
From Stdlib Require Qcanon.
From stdpp Require Import base option list.

Local Open Scope Z_scope.

(* ===================================================================== *)
(** ** Values, exceptions and the heap *)
(* ===================================================================== *)

(** The JavaScript values that reach an element slot: a number or
    [undefined]. *)
Inductive JsValue :=
| Undefined
| Num (n : Z).

(** The exceptions the module can end with.  The first five are thrown by
    [index.js] itself (the comment gives the message), the others by the
    host: [DataView.prototype.getUint8/setUint8] outside the view, the
    [DataView] constructor applied to something that is not an
    [ArrayBuffer], and an assignment of strict-mode code whose [set] trap
    answered [false] ([index.js] starts with ["use strict"]). *)
Inductive Exception :=
| RangeError_InvalidLength (n : Z)   (* Invalid typed array length: n *)
| RangeError_InvalidOffset (n : Z)   (* Invalid typed array offset: n *)
| RangeError_OffsetOutside (n : Z)   (* Offset n is outside the bounds of the buffer *)
| RangeError_LengthOutside (n : Z)   (* Length n is outside the bounds of the buffer *)
| RangeError_SetOffset               (* offset is out of bounds *)
| RangeError_DataViewBounds
| TypeError_NotArrayBuffer
| TypeError_TrapReturnedFalse.

Definition is_RangeError (e : Exception) : bool :=
  match e with
  | RangeError_InvalidLength _ | RangeError_InvalidOffset _
  | RangeError_OffsetOutside _ | RangeError_LengthOutside _
  | RangeError_SetOffset | RangeError_DataViewBounds => true
  | TypeError_NotArrayBuffer | TypeError_TrapReturnedFalse => false
  end.

Definition is_TypeError (e : Exception) : bool := negb (is_RangeError e).

(** The heap of [ArrayBuffer]s; [new ArrayBuffer(n)] appends a buffer. *)
Abbreviation ArrayBuffer := (list Z) (only parsing).
Abbreviation Heap := (list (list Z)) (only parsing).

Inductive Completion (A : Type) :=
| Normal (a : A) (h : Heap)
| Throw (e : Exception) (h : Heap).
Arguments Normal {A} a h.
Arguments Throw {A} e h.

Definition JS (A : Type) : Type := Heap -> Completion A.

Definition ret {A} (a : A) : JS A := fun h => Normal a h.

Definition throw {A} (e : Exception) : JS A := fun h => Throw e h.

Definition bind {A B} (m : JS A) (k : A -> JS B) : JS B :=
  fun h => match m h with
           | Normal a h' => k a h'
           | Throw e h' => Throw e h'
           end.

Notation "'let*' x := m 'in' k" := (bind m (fun x => k))
  (at level 10, x name, m at level 100, k at level 200).
Notation "m ;; k" := (bind m (fun _ => k))
  (at level 100, k at level 200, right associativity).

(** [for (let i = start; i < start + n; i++) body(i)]. *)
Fixpoint for_loop (start : Z) (n : nat) (body : Z -> JS unit) : JS unit :=
  match n with
  | O => ret tt
  | S n' => body start ;; for_loop (start + 1) n' body
  end.

(** The heap after a computation, however it ended. *)
Definition heap_of {A} (c : Completion A) : Heap :=
  match c with
  | Normal _ h => h
  | Throw _ h => h
  end.

(* ===================================================================== *)
(** ** Number operations *)
(* ===================================================================== *)

(** [ToInt32]: the wrap-around applied to the operands of [&], [|], [>>]. *)
Definition ToInt32 (n : Z) : Z := (n + 2 ^ 31) mod 2 ^ 32 - 2 ^ 31.

(** [a >> n] on a non-negative [a]: only the low five bits of the count
    are used. *)
Definition js_shr (a n : Z) : Z := Z.shiftr a (Z.land n 31).

(** [Math.ceil(n / 8)]. *)
Definition ceil_div8 (n : Z) : Z := - ((- n) / 8).

(** [value & 1]; [undefined] converts to [NaN] and then to [0]. *)
Definition and1 (value : JsValue) : Z :=
  match value with
  | Undefined => 0
  | Num n => Z.land (ToInt32 n) 1
  end.

(** Truthiness of a number in a condition. *)
Definition truthy (n : Z) : bool := negb (n =? 0).

(* ===================================================================== *)
(** ** BitDataView *)
(* ===================================================================== *)

(** A [DataView] over a whole [ArrayBuffer]: it only holds the reference. *)
Record BitDataView := { buffer : nat }.

(** [new ArrayBuffer(n)]: a fresh zero-filled buffer.  The host refuses a
    length it cannot allocate; the model covers the allocations that
    succeed. *)
Definition new_ArrayBuffer (n : Z) : JS nat :=
  fun h => Normal (length h) (h ++ [replicate (Z.to_nat n) 0]).

(** [DataView.prototype.getUint8]. *)
Definition getUint8 (view : BitDataView) (byteOffset : Z) : JS Z :=
  fun h =>
    match h !! buffer view with
    | None => Throw TypeError_NotArrayBuffer h
    | Some buf =>
        if (0 <=? byteOffset) && (byteOffset <? Z.of_nat (length buf)) then
          match buf !! Z.to_nat byteOffset with
          | Some b => Normal b h
          | None => Throw RangeError_DataViewBounds h
          end
        else Throw RangeError_DataViewBounds h
    end.

(** [DataView.prototype.setUint8]: the value is stored modulo 256. *)
Definition setUint8 (view : BitDataView) (byteOffset value : Z) : JS unit :=
  fun h =>
    match h !! buffer view with
    | None => Throw TypeError_NotArrayBuffer h
    | Some buf =>
        if (0 <=? byteOffset) && (byteOffset <? Z.of_nat (length buf)) then
          Normal tt (<[buffer view := <[Z.to_nat byteOffset := value mod 256]> buf]> h)
        else Throw RangeError_DataViewBounds h
    end.

(** [BitDataView.getUint1]. *)
Definition getUint1 (view : BitDataView) (bitOffset : Z) : JS Z :=
  let byteOffset := bitOffset / 8 in
  let bitMask := js_shr 128 (Z.rem bitOffset 8) in
  let* b := getUint8 view byteOffset in
  ret (if truthy (Z.land b bitMask) then 1 else 0).

(** [BitDataView.setUint1]. *)
Definition setUint1 (view : BitDataView) (bitOffset : Z) (value : JsValue) : JS unit :=
  let byteOffset := bitOffset / 8 in
  let bitMask := js_shr 128 (Z.rem bitOffset 8) in
  if truthy (and1 value) then
    let* b := getUint8 view byteOffset in
    setUint8 view byteOffset (Z.lor b bitMask)
  else
    let* b := getUint8 view byteOffset in
    setUint8 view byteOffset (Z.land b (Z.lnot bitMask)).

(* ===================================================================== *)
(** ** Uint1Array *)
(* ===================================================================== *)

Record Uint1Array := {
  bitOffset : Z;
  bitLength : Z;
  internal : BitDataView
}.

(** What the constructor can receive as [source]. *)
Inductive Source :=
| SrcUndefined
| SrcNumber (n : Z)
| SrcArrayBuffer (b : nat)
| SrcUint1Array (a : Uint1Array)
| SrcArrayLike (items : list JsValue)
| SrcIterable (items : list JsValue).

(** [typeof source === 'object']. *)
Definition typeof_object (source : Source) : bool :=
  match source with
  | SrcUndefined | SrcNumber _ => false
  | _ => true
  end.

(** ['byteLength' in source]: [ArrayBuffer.prototype] has the accessor, and
    so has [Uint1Array.prototype] (the getter below); the proxy has no
    [has] trap, so the test reaches the prototype chain of its target. *)
Definition has_byteLength (source : Source) : bool :=
  match source with
  | SrcArrayBuffer _ | SrcUint1Array _ => true
  | _ => false
  end.

(** [get byteOffset()], [get byteLength()], [get length()]. *)
Definition Uint1Array_byteOffset (this : Uint1Array) : Z := bitOffset this / 8.

Definition Uint1Array_byteLength (this : Uint1Array) : Z :=
  ceil_div8 (bitOffset this + bitLength this) - bitOffset this / 8.

Definition Uint1Array_length (this : Uint1Array) : Z := bitLength this.

(** [source.byteLength], for the sources that have it. *)
Definition source_byteLength (source : Source) : JS Z :=
  fun h =>
    match source with
    | SrcArrayBuffer b => Normal (Z.of_nat (length (default [] (h !! b)))) h
    | SrcUint1Array a => Normal (Uint1Array_byteLength a) h
    | _ => Normal 0 h
    end.

(** [new BitDataView(source)]: the inherited [DataView] constructor throws
    a [TypeError] unless its argument is an [ArrayBuffer]. *)
Definition new_BitDataView (source : Source) : JS BitDataView :=
  match source with
  | SrcArrayBuffer b => ret {| buffer := b |}
  | _ => throw TypeError_NotArrayBuffer
  end.

(** The elements of an array-like or of a drained iterable. *)
Definition source_items (source : Source) : list JsValue :=
  match source with
  | SrcArrayLike items | SrcIterable items => items
  | _ => []
  end.

(** [array[i]]: [undefined] outside the array. *)
Definition array_get (array : list JsValue) (i : Z) : JsValue :=
  if i <? 0 then Undefined else default Undefined (array !! Z.to_nat i).

(** The constructor, up to the [return new Proxy(this, ...)].
    [Number.isInteger] holds of every [Z], so only the sign tests remain
    of the first two validations. *)
Definition Uint1Array_new (source : Source) (offset len : option Z) : JS Uint1Array :=
  if negb (typeof_object source) then
    let source := match source with SrcNumber n => n | _ => 0 end in
    if source <? 0 then throw (RangeError_InvalidLength source)
    else
      let* b := new_ArrayBuffer (ceil_div8 source) in
      ret {| bitOffset := 0; bitLength := source; internal := {| buffer := b |} |}
  else if has_byteLength source then
    let offset := default 0 offset in
    let* byteLength := source_byteLength source in
    let len := default (byteLength * 8 - offset) len in
    if offset <? 0 then throw (RangeError_InvalidOffset offset)
    else if len <? 0 then throw (RangeError_InvalidLength len)
    else if offset >? byteLength * 8 then throw (RangeError_OffsetOutside offset)
    else if len + offset >? byteLength * 8 then throw (RangeError_LengthOutside len)
    else
      let* view := new_BitDataView source in
      ret {| bitOffset := offset; bitLength := len; internal := view |}
  else
    let items := source_items source in
    let* b := new_ArrayBuffer (ceil_div8 (Z.of_nat (length items))) in
    let view := {| buffer := b |} in
    for_loop 0 (length items) (fun i => setUint1 view i (array_get items i)) ;;
    ret {| bitOffset := 0; bitLength := Z.of_nat (length items); internal := view |}.

(** *** The proxy handler *)

(** [Number.isInteger(index)] on a rational key. *)
Definition Number_isInteger (index : Q) : bool := (Qden (Qred index) =? 1)%positive.

(** [Number.isInteger(index) && index >= 0 && index < this.bitLength]. *)
Definition index_ok (this : Uint1Array) (index : Q) : bool :=
  Number_isInteger index && Qle_bool 0 index
  && negb (Qle_bool (inject_Z (bitLength this)) index).

(** The [get] trap at a numeric key. *)
Definition proxy_get (this : Uint1Array) (index : Q) : JS JsValue :=
  if index_ok this index then
    let* b := getUint1 (internal this) (Qnum (Qred index) + bitOffset this) in
    ret (Num b)
  else ret Undefined.

(** The [set] trap at a numeric key; its result is the trap's boolean. *)
Definition proxy_set (this : Uint1Array) (index : Q) (value : JsValue) : JS bool :=
  if index_ok this index then
    setUint1 (internal this) (Qnum (Qred index) + bitOffset this) value ;;
    ret true
  else ret false.

(** [this[i]] and [this[i] = value] as the methods of the class write
    them.  The module is strict-mode code, where an assignment whose trap
    answers [false] throws a [TypeError]. *)
Definition get_element (this : Uint1Array) (i : Z) : JS JsValue :=
  proxy_get this (inject_Z i).

Definition put_element (this : Uint1Array) (i : Z) (value : JsValue) : JS unit :=
  let* ok := proxy_set this (inject_Z i) value in
  if ok : bool then ret tt else throw TypeError_TrapReturnedFalse.

(** [v[index] = value] in calling code.  The assignment calls the [set]
    trap; when the trap answers [false], code in strict mode throws a
    [TypeError] and code that is not in strict mode goes on. *)
Definition assign_element (strict : bool) (this : Uint1Array) (index : Q)
    (value : JsValue) : JS unit :=
  let* ok := proxy_set this index value in
  if (ok : bool) || negb strict then ret tt else throw TypeError_TrapReturnedFalse.

(** *** Methods *)

Definition Uint1Array_of (items : list JsValue) : JS Uint1Array :=
  Uint1Array_new (SrcArrayLike items) None None.

Definition Uint1Array_subarray (this : Uint1Array) (begin end_ : option Z) : JS Uint1Array :=
  let begin := default 0 begin in
  let begin := if begin <? 0 then bitLength this + begin else begin in
  let begin := if begin <? 0 then 0 else begin in
  let end_ := default (bitLength this) end_ in
  let end_ := if end_ <? 0 then bitLength this + end_ else end_ in
  let end_ := if end_ >? bitLength this then bitLength this else end_ in
  let len := if begin >? end_ then 0 else end_ - begin in
  Uint1Array_new (SrcArrayBuffer (buffer (internal this)))
                 (Some (bitOffset this + begin)) (Some len).

Definition Uint1Array_slice (this : Uint1Array) (start end_ : option Z) : JS Uint1Array :=
  let* sub := Uint1Array_subarray this start end_ in
  Uint1Array_new (SrcUint1Array sub) None None.

(** [set(array, offset)] for a source whose elements the writes cannot
    change: a plain array or a snapshot such as [[...this]]. *)
Definition Uint1Array_set (this : Uint1Array) (array : list JsValue) (offset : option Z)
  : JS unit :=
  let offset := default 0 offset in
  if (offset <? 0) || (offset + Z.of_nat (length array) >? bitLength this) then
    throw RangeError_SetOffset
  else
    for_loop 0 (length array) (fun i => put_element this (i + offset) (array_get array i)).

(** [[...this]]: the iterator drained into an array. *)
Fixpoint iterate_from (this : Uint1Array) (i : Z) (n : nat) : JS (list JsValue) :=
  match n with
  | O => ret []
  | S n' =>
      let* x := get_element this i in
      let* rest := iterate_from this (i + 1) n' in
      ret (x :: rest)
  end.

Definition Uint1Array_iterator (this : Uint1Array) : JS (list JsValue) :=
  iterate_from this 0 (Z.to_nat (bitLength this)).

(** [Array.prototype.sort(compareFn)]: [undefined] elements go last without
    being compared, the others are sorted stably; [compareFn a b > 0]
    means that [a] comes after [b].  For a consistent comparator every
    conforming sort returns this array; for an inconsistent one the order
    is the engine's own and is not modelled. *)
Fixpoint sort_insert (compareFn : Z -> Z -> Z) (x : Z) (l : list Z) : list Z :=
  match l with
  | [] => [x]
  | y :: l' => if compareFn x y >? 0 then y :: sort_insert compareFn x l' else x :: l
  end.

Definition js_numbers (l : list JsValue) : list Z :=
  omap (fun v => match v with Num n => Some n | Undefined => None end) l.

Definition js_undefineds (l : list JsValue) : list JsValue :=
  omap (fun v => match v with Num _ => None | Undefined => Some Undefined end) l.

Definition Array_sort (compareFn : Z -> Z -> Z) (l : list JsValue) : list JsValue :=
  (Num <$> foldr (sort_insert compareFn) [] (js_numbers l)) ++ js_undefineds l.

(** The default comparator of [sort]: [(a, b) => a - b]. *)
Definition default_compareFn (a b : Z) : Z := a - b.

(** A comparator that is consistent on the elements a vector can hold:
    an element equals itself, and [x] is after [y] exactly when [y] is
    before [x]. *)
Definition consistent_comparator (compareFn : Z -> Z -> Z) : Prop :=
  forall x y : Z,
    x = 0 \/ x = 1 -> y = 0 \/ y = 1 ->
    compareFn x x = 0 /\ (0 < compareFn x y <-> compareFn y x < 0).

Definition Uint1Array_sort (this : Uint1Array) (compareFn : option (Z -> Z -> Z))
  : JS Uint1Array :=
  let compareFn := default default_compareFn compareFn in
  let* elements := Uint1Array_iterator this in
  Uint1Array_set this (Array_sort compareFn elements) None ;;
  ret this.

(** *** Further methods

    A callback is a JavaScript function: it runs in [JS] and receives the
    element, its index and the vector. *)

(** [a === b] on element values. *)
Definition strict_eq (a b : JsValue) : bool :=
  match a, b with
  | Undefined, Undefined => true
  | Num x, Num y => x =? y
  | _, _ => false
  end.

Definition Uint1Array_fill (this : Uint1Array) (value : JsValue) (start end_ : option Z)
  : JS Uint1Array :=
  let* subarray := Uint1Array_subarray this start end_ in
  for_loop 0 (Z.to_nat (bitLength subarray)) (fun i => put_element subarray i value) ;;
  ret this.

Definition Uint1Array_copyWithin (this : Uint1Array) (target : Z) (start end_ : option Z)
  : JS Uint1Array :=
  let* toCopy := Uint1Array_slice this start end_ in
  for_loop 0 (Z.to_nat (bitLength toCopy))
    (fun i => let* x := get_element toCopy i in put_element this (target + i) x) ;;
  ret this.

(** [keys()], [values()] and [entries()], drained. *)
Fixpoint keys_from (i : Z) (n : nat) : list Z :=
  match n with
  | O => []
  | S n' => i :: keys_from (i + 1) n'
  end.

Definition Uint1Array_keys (this : Uint1Array) : JS (list Z) :=
  ret (keys_from 0 (Z.to_nat (bitLength this))).

Definition Uint1Array_values (this : Uint1Array) : JS (list JsValue) :=
  iterate_from this 0 (Z.to_nat (bitLength this)).

Fixpoint entries_from (this : Uint1Array) (i : Z) (n : nat) : JS (list (Z * JsValue)) :=
  match n with
  | O => ret []
  | S n' =>
      let* x := get_element this i in
      let* rest := entries_from this (i + 1) n' in
      ret ((i, x) :: rest)
  end.

Definition Uint1Array_entries (this : Uint1Array) : JS (list (Z * JsValue)) :=
  entries_from this 0 (Z.to_nat (bitLength this)).

Fixpoint every_loop (this : Uint1Array) (predicate : JsValue -> Z -> Uint1Array -> JS bool)
    (i : Z) (n : nat) : JS bool :=
  match n with
  | O => ret true
  | S n' =>
      let* x := get_element this i in
      let* ok := predicate x i this in
      if ok : bool then every_loop this predicate (i + 1) n' else ret false
  end.

Definition Uint1Array_every (this : Uint1Array)
    (predicate : JsValue -> Z -> Uint1Array -> JS bool) : JS bool :=
  every_loop this predicate 0 (Z.to_nat (bitLength this)).

Fixpoint some_loop (this : Uint1Array) (predicate : JsValue -> Z -> Uint1Array -> JS bool)
    (i : Z) (n : nat) : JS bool :=
  match n with
  | O => ret false
  | S n' =>
      let* x := get_element this i in
      let* ok := predicate x i this in
      if ok : bool then ret true else some_loop this predicate (i + 1) n'
  end.

Definition Uint1Array_some (this : Uint1Array)
    (predicate : JsValue -> Z -> Uint1Array -> JS bool) : JS bool :=
  some_loop this predicate 0 (Z.to_nat (bitLength this)).

(** [find] reads [this[i]] a second time for its result. *)
Fixpoint find_loop (this : Uint1Array) (predicate : JsValue -> Z -> Uint1Array -> JS bool)
    (i : Z) (n : nat) : JS JsValue :=
  match n with
  | O => ret Undefined
  | S n' =>
      let* x := get_element this i in
      let* ok := predicate x i this in
      if ok : bool then get_element this i else find_loop this predicate (i + 1) n'
  end.

Definition Uint1Array_find (this : Uint1Array)
    (predicate : JsValue -> Z -> Uint1Array -> JS bool) : JS JsValue :=
  find_loop this predicate 0 (Z.to_nat (bitLength this)).

Fixpoint findIndex_loop (this : Uint1Array)
    (predicate : JsValue -> Z -> Uint1Array -> JS bool) (i : Z) (n : nat) : JS Z :=
  match n with
  | O => ret (-1)
  | S n' =>
      let* x := get_element this i in
      let* ok := predicate x i this in
      if ok : bool then ret i else findIndex_loop this predicate (i + 1) n'
  end.

Definition Uint1Array_findIndex (this : Uint1Array)
    (predicate : JsValue -> Z -> Uint1Array -> JS bool) : JS Z :=
  findIndex_loop this predicate 0 (Z.to_nat (bitLength this)).

(** [for (let i = fromIndex; i < this.bitLength; i++)] runs
    [max(0, bitLength - fromIndex)] times, as long as the counter stays
    within the integers a JavaScript number steps through exactly
    ([-2^53] to [2^53]); beyond them [i++] no longer advances. *)
Fixpoint includes_loop (this : Uint1Array) (searchElement : JsValue) (i : Z) (n : nat)
  : JS bool :=
  match n with
  | O => ret false
  | S n' =>
      let* x := get_element this i in
      if strict_eq x searchElement then ret true
      else includes_loop this searchElement (i + 1) n'
  end.

Definition Uint1Array_includes (this : Uint1Array) (searchElement : JsValue)
    (fromIndex : option Z) : JS bool :=
  let fromIndex := default 0 fromIndex in
  includes_loop this searchElement fromIndex (Z.to_nat (bitLength this - fromIndex)).

Fixpoint indexOf_loop (this : Uint1Array) (searchElement : JsValue) (i : Z) (n : nat)
  : JS Z :=
  match n with
  | O => ret (-1)
  | S n' =>
      let* x := get_element this i in
      if strict_eq x searchElement then ret i
      else indexOf_loop this searchElement (i + 1) n'
  end.

Definition Uint1Array_indexOf (this : Uint1Array) (searchElement : JsValue)
    (fromIndex : option Z) : JS Z :=
  let fromIndex := default 0 fromIndex in
  indexOf_loop this searchElement fromIndex (Z.to_nat (bitLength this - fromIndex)).

(** [for (let i = fromIndex; i >= 0; i--)] runs [max(0, fromIndex + 1)]
    times, as long as the counter starts within the integers a JavaScript
    number steps through exactly (up to [2^53]). *)
Fixpoint lastIndexOf_loop (this : Uint1Array) (searchElement : JsValue) (i : Z) (n : nat)
  : JS Z :=
  match n with
  | O => ret (-1)
  | S n' =>
      let* x := get_element this i in
      if strict_eq x searchElement then ret i
      else lastIndexOf_loop this searchElement (i - 1) n'
  end.

Definition Uint1Array_lastIndexOf (this : Uint1Array) (searchElement : JsValue)
    (fromIndex : option Z) : JS Z :=
  let fromIndex := default (bitLength this - 1) fromIndex in
  lastIndexOf_loop this searchElement fromIndex (Z.to_nat (fromIndex + 1)).

Fixpoint reduce_loop {T : Type} (this : Uint1Array)
    (callbackfn : T -> JsValue -> Z -> Uint1Array -> JS T)
    (i : Z) (n : nat) (previousValue : T) : JS T :=
  match n with
  | O => ret previousValue
  | S n' =>
      let* x := get_element this i in
      let* previousValue := callbackfn previousValue x i this in
      reduce_loop this callbackfn (i + 1) n' previousValue
  end.

Definition Uint1Array_reduce {T : Type} (this : Uint1Array)
    (callbackfn : T -> JsValue -> Z -> Uint1Array -> JS T) (initialValue : T) : JS T :=
  reduce_loop this callbackfn 0 (Z.to_nat (bitLength this)) initialValue.

Fixpoint reduceRight_loop {T : Type} (this : Uint1Array)
    (callbackfn : T -> JsValue -> Z -> Uint1Array -> JS T)
    (i : Z) (n : nat) (previousValue : T) : JS T :=
  match n with
  | O => ret previousValue
  | S n' =>
      let* x := get_element this i in
      let* previousValue := callbackfn previousValue x i this in
      reduceRight_loop this callbackfn (i - 1) n' previousValue
  end.

Definition Uint1Array_reduceRight {T : Type} (this : Uint1Array)
    (callbackfn : T -> JsValue -> Z -> Uint1Array -> JS T) (initialValue : T) : JS T :=
  reduceRight_loop this callbackfn (bitLength this - 1) (Z.to_nat (bitLength this))
    initialValue.

(** The loop of [filter]; it returns the final [length].  In
    [array[length++] = this[i]] the key is the old [length] and [this[i]]
    is read again. *)
Fixpoint filter_loop (this array : Uint1Array)
    (predicate : JsValue -> Z -> Uint1Array -> JS bool)
    (i : Z) (n : nat) (len : Z) : JS Z :=
  match n with
  | O => ret len
  | S n' =>
      let* x := get_element this i in
      let* ok := predicate x i this in
      if ok : bool then
        let* y := get_element this i in
        put_element array len y ;;
        filter_loop this array predicate (i + 1) n' (len + 1)
      else filter_loop this array predicate (i + 1) n' len
  end.

Definition Uint1Array_filter (this : Uint1Array)
    (predicate : JsValue -> Z -> Uint1Array -> JS bool) : JS Uint1Array :=
  let* array := Uint1Array_new (SrcNumber (bitLength this)) None None in
  let* len := filter_loop this array predicate 0 (Z.to_nat (bitLength this)) 0 in
  Uint1Array_slice array (Some 0) (Some len).

Definition Uint1Array_map (this : Uint1Array)
    (callbackFn : JsValue -> Z -> Uint1Array -> JS JsValue) : JS Uint1Array :=
  let* array := Uint1Array_new (SrcNumber (bitLength this)) None None in
  for_loop 0 (Z.to_nat (bitLength this))
    (fun i =>
       let* x := get_element this i in
       let* y := callbackFn x i this in
       put_element array i y) ;;
  ret array.

(** [Array.prototype.reverse] is the reversal of the list. *)
Definition Uint1Array_reverse (this : Uint1Array) : JS Uint1Array :=
  let* elements := Uint1Array_iterator this in
  Uint1Array_set this (reverse elements) None ;;
  ret this.

(** A callback without effects. *)
Definition pure_callback {A : Type} (f : JsValue -> Z -> A)
  : JsValue -> Z -> Uint1Array -> JS A :=
  fun x i _ => ret (f x i).

(** A vector is valid in a heap when its window lies inside its buffer:
    the invariant every constructor path establishes. *)
Definition valid (h : Heap) (a : Uint1Array) : Prop :=
  exists buf : list Z,
    h !! buffer (internal a) = Some buf /\
    0 <= bitOffset a /\ 0 <= bitLength a /\
    bitOffset a + bitLength a <= 8 * Z.of_nat (length buf).

(** The value of bit [i] of a buffer, most significant bit of each byte
    first, and the buffer after [setUint1] at bit [i]: the pure content of
    the two accessors, used to state what the loops do. *)
Definition buf_bit (buf : list Z) (i : Z) : Z :=
  match buf !! Z.to_nat (i / 8) with
  | Some b => if Z.testbit b (7 - i mod 8) then 1 else 0
  | None => 0
  end.

Definition buf_set (buf : list Z) (i : Z) (value : JsValue) : list Z :=
  match buf !! Z.to_nat (i / 8) with
  | Some b =>
      <[Z.to_nat (i / 8) :=
          (if truthy (and1 value) then Z.lor b (2 ^ (7 - i mod 8))
           else Z.land b (Z.lnot (2 ^ (7 - i mod 8)))) mod 256]> buf
  | None => buf
  end.

(** A 0/1 element. *)
Definition is_bit (v : JsValue) : Prop := v = Num 0 \/ v = Num 1.

(** The mapping of the specification, in its words: byte index
    [floor(bitOffset / 8)] and mask [0x80 >> (bitOffset mod 8)]. *)
Definition spec_byte_index (bitOffset : Z) : Z := bitOffset / 8.
Definition spec_bit_mask (bitOffset : Z) : Z := Z.shiftr 128 (bitOffset mod 8).

(** The elements of a vector in a heap: the bits of its window, in order.
    Used to state what the methods do to the contents. *)
Definition window_bits (buf : list Z) (a : Uint1Array) : list Z :=
  (fun k => buf_bit buf (k + bitOffset a)) <$> seqZ 0 (bitLength a).

Definition elements_of (h : Heap) (a : Uint1Array) : list Z :=
  window_bits (default [] (h !! buffer (internal a))) a.

(** What reading index [j] of a vector yields: the bit inside the window,
    [undefined] outside. *)
Definition element_at (buf : list Z) (a : Uint1Array) (j : Z) : JsValue :=
  if (0 <=? j) && (j <? bitLength a) then Num (buf_bit buf (j + bitOffset a))
  else Undefined.

(** The fold that [reduce] computes, over the elements from index [i]. *)
Fixpoint fold_elements {T : Type} (f : T -> JsValue -> Z -> T) (i : Z) (l : list Z)
    (acc : T) : T :=
  match l with
  | [] => acc
  | b :: l' => fold_elements f (i + 1) l' (f acc (Num b) i)
  end.

(** The fold that [reduceRight] computes: the last element first. *)
Fixpoint fold_elements_right {T : Type} (f : T -> JsValue -> Z -> T) (i : Z) (l : list Z)
    (acc : T) : T :=
  match l with
  | [] => acc
  | b :: l' => f (fold_elements_right f (i + 1) l' acc) (Num b) i
  end.

(* ===================================================================== *)
(** ** Bit-level lemmas *)
(* ===================================================================== *)

Lemma js_shr_mask (i : Z) :
  0 <= i -> js_shr 128 (Z.rem i 8) = 2 ^ (7 - i mod 8).
Proof.
  intros Hi. rewrite Z.rem_mod_nonneg by lia.
  assert (Hk : 0 <= i mod 8 < 8) by (apply Z.mod_pos_bound; lia).
  unfold js_shr.
  assert (Hc : i mod 8 = 0 \/ i mod 8 = 1 \/ i mod 8 = 2 \/ i mod 8 = 3 \/
               i mod 8 = 4 \/ i mod 8 = 5 \/ i mod 8 = 6 \/ i mod 8 = 7) by lia.
  destruct Hc as [-> | [-> | [-> | [-> | [-> | [-> | [-> | ->]]]]]]]; reflexivity.
Qed.

Lemma land_pow2 (b p : Z) :
  0 <= p -> Z.land b (2 ^ p) = if Z.testbit b p then 2 ^ p else 0.
Proof.
  intros Hp. apply Z.bits_inj'. intros n Hn.
  rewrite Z.land_spec, Z.pow2_bits_eqb by lia.
  destruct (Z.eqb_spec p n) as [-> | Hne].
  - destruct (Z.testbit b n); simpl.
    + rewrite Z.pow2_bits_true by lia. reflexivity.
    + rewrite Z.bits_0. reflexivity.
  - rewrite andb_false_r. destruct (Z.testbit b p).
    + rewrite Z.pow2_bits_false by lia. reflexivity.
    + rewrite Z.bits_0. reflexivity.
Qed.

Lemma truthy_land_pow2 (b p : Z) :
  0 <= p -> truthy (Z.land b (2 ^ p)) = Z.testbit b p.
Proof.
  intros Hp. rewrite land_pow2 by lia. unfold truthy.
  destruct (Z.testbit b p); [| reflexivity].
  assert (0 < 2 ^ p) by (apply Z.pow_pos_nonneg; lia).
  destruct (Z.eqb_spec (2 ^ p) 0); [lia | reflexivity].
Qed.

(** The wrap-around of [ToInt32] keeps the low bit. *)
Lemma and1_Num (n : Z) : and1 (Num n) = n mod 2.
Proof.
  unfold and1.
  pose proof (Z.land_ones (ToInt32 n) 1 ltac:(lia)) as H.
  change (Z.ones 1) with 1 in H. change (2 ^ 1) with 2 in H.
  rewrite H. unfold ToInt32.
  replace ((n + 2 ^ 31) mod 2 ^ 32 - 2 ^ 31)
    with ((n + 2 ^ 31) mod 2 ^ 32 + (- 2 ^ 30) * 2) by lia.
  rewrite Z.mod_add by lia.
  change (2 ^ 32) with (2 * 2 ^ 31).
  rewrite Z.rem_mul_r by lia.
  rewrite Z.mul_comm, Z.mod_add by lia.
  rewrite Z.mod_mod by lia.
  change (2 ^ 31) with (2 ^ 30 * 2). rewrite Z.mod_add by lia. reflexivity.
Qed.

Lemma and1_bit (v : JsValue) : and1 v = 0 \/ and1 v = 1.
Proof.
  destruct v as [| n]; [left; reflexivity |].
  rewrite and1_Num. pose proof (Z.mod_pos_bound n 2). lia.
Qed.

Lemma and1_of_bit (b : Z) : b = 0 \/ b = 1 -> and1 (Num b) = b.
Proof. intros [-> | ->]; reflexivity. Qed.

Lemma byte_index_bounds (len i : Z) :
  0 <= i < 8 * len -> 0 <= i / 8 < len.
Proof.
  intros H. split; [apply Z.div_pos; lia | apply Z.div_lt_upper_bound; lia].
Qed.

Lemma getUint8_ok (view : BitDataView) (h : list (list Z)) (buf : list Z) (k b : Z) :
  h !! buffer view = Some buf -> 0 <= k ->
  buf !! Z.to_nat k = Some b ->
  getUint8 view k h = Normal b h.
Proof.
  intros Hbuf Hk Hlk. apply lookup_lt_Some in Hlk as Hlt.
  unfold getUint8. rewrite Hbuf.
  destruct (Z.leb_spec 0 k); [| lia].
  destruct (Z.ltb_spec k (Z.of_nat (length buf))); [| lia].
  simpl. rewrite Hlk. reflexivity.
Qed.

Lemma setUint8_ok (view : BitDataView) (h : list (list Z)) (buf : list Z) (k x : Z) :
  h !! buffer view = Some buf -> 0 <= k < Z.of_nat (length buf) ->
  setUint8 view k x h = Normal tt (<[buffer view := <[Z.to_nat k := x mod 256]> buf]> h).
Proof.
  intros Hbuf Hk. unfold setUint8. rewrite Hbuf.
  destruct (Z.leb_spec 0 k); [| lia].
  destruct (Z.ltb_spec k (Z.of_nat (length buf))); [| lia].
  reflexivity.
Qed.

(** What [getUint1] and [setUint1] do on a buffer that contains the bit. *)
Lemma getUint1_spec (view : BitDataView) (h : list (list Z)) (buf : list Z) (i : Z) :
  h !! buffer view = Some buf ->
  0 <= i < 8 * Z.of_nat (length buf) ->
  getUint1 view i h = Normal (buf_bit buf i) h.
Proof.
  intros Hbuf Hi. pose proof (byte_index_bounds _ _ Hi) as Hb.
  destruct (lookup_lt_is_Some_2 buf (Z.to_nat (i / 8))) as [b Hlk]; [lia |].
  unfold getUint1, bind, buf_bit.
  rewrite (getUint8_ok _ _ _ _ _ Hbuf (proj1 Hb) Hlk), Hlk.
  unfold ret. rewrite js_shr_mask by lia.
  assert (0 <= i mod 8 < 8) by (apply Z.mod_pos_bound; lia).
  rewrite truthy_land_pow2 by lia. reflexivity.
Qed.

Lemma setUint1_spec (view : BitDataView) (h : list (list Z)) (buf : list Z)
    (i : Z) (value : JsValue) :
  h !! buffer view = Some buf ->
  0 <= i < 8 * Z.of_nat (length buf) ->
  setUint1 view i value h = Normal tt (<[buffer view := buf_set buf i value]> h).
Proof.
  intros Hbuf Hi. pose proof (byte_index_bounds _ _ Hi) as Hb.
  destruct (lookup_lt_is_Some_2 buf (Z.to_nat (i / 8))) as [b Hlk]; [lia |].
  unfold setUint1, buf_set. rewrite Hlk, js_shr_mask by lia.
  destruct (truthy (and1 value));
    unfold bind;
    rewrite (getUint8_ok _ _ _ _ _ Hbuf (proj1 Hb) Hlk);
    apply setUint8_ok; assumption.
Qed.

Lemma buf_set_length (buf : list Z) (i : Z) (value : JsValue) :
  length (buf_set buf i value) = length buf.
Proof.
  unfold buf_set. destruct (buf !! Z.to_nat (i / 8)); [apply length_insert | reflexivity].
Qed.

(** The byte written by [setUint1], bit by bit. *)
Lemma new_byte_testbit (b k p : Z) (value : JsValue) :
  0 <= k < 8 -> 0 <= p < 8 ->
  Z.testbit ((if truthy (and1 value) then Z.lor b (2 ^ k)
              else Z.land b (Z.lnot (2 ^ k))) mod 256) p
  = if p =? k then truthy (and1 value) else Z.testbit b p.
Proof.
  intros Hk Hp. change 256 with (2 ^ 8).
  rewrite Z.mod_pow2_bits_low by lia.
  destruct (truthy (and1 value)).
  - rewrite Z.lor_spec, Z.pow2_bits_eqb by lia.
    rewrite (Z.eqb_sym k p). destruct (p =? k); [apply orb_true_r | apply orb_false_r].
  - rewrite Z.land_spec, Z.lnot_spec, Z.pow2_bits_eqb by lia.
    rewrite (Z.eqb_sym k p). destruct (p =? k); [apply andb_false_r | apply andb_true_r].
Qed.

Lemma bit_index_eq (i j : Z) : i / 8 = j / 8 -> i mod 8 = j mod 8 -> i = j.
Proof.
  intros Hd Hm. rewrite (Z.div_mod i 8), (Z.div_mod j 8) by lia. lia.
Qed.

(** Writing bit [i] sets it to the low bit of the value and keeps every
    other bit of the buffer. *)
Lemma buf_bit_set (buf : list Z) (i j : Z) (value : JsValue) :
  0 <= i < 8 * Z.of_nat (length buf) -> 0 <= j ->
  buf_bit (buf_set buf i value) j = if j =? i then and1 value else buf_bit buf j.
Proof.
  intros Hi Hj. pose proof (byte_index_bounds _ _ Hi) as Hb.
  destruct (lookup_lt_is_Some_2 buf (Z.to_nat (i / 8))) as [b Hlk]; [lia |].
  assert (Hki : 0 <= i mod 8 < 8) by (apply Z.mod_pos_bound; lia).
  assert (Hkj : 0 <= j mod 8 < 8) by (apply Z.mod_pos_bound; lia).
  assert (0 <= j / 8) by (apply Z.div_pos; lia).
  unfold buf_set. rewrite Hlk. unfold buf_bit.
  destruct (Z.eq_dec (j / 8) (i / 8)) as [Hd | Hd].
  - rewrite Hd, list_lookup_insert_eq by lia. rewrite Hlk.
    rewrite new_byte_testbit by lia.
    destruct (Z.eqb_spec (7 - j mod 8) (7 - i mod 8)) as [Hm | Hm].
    + assert (j = i) as -> by (apply bit_index_eq; lia).
      rewrite Z.eqb_refl. unfold truthy.
      destruct (and1_bit value) as [-> | ->]; reflexivity.
    + destruct (Z.eqb_spec j i) as [-> | _]; [lia | reflexivity].
  - rewrite list_lookup_insert_ne by lia.
    destruct (Z.eqb_spec j i) as [-> | _]; [lia | reflexivity].
Qed.

(* ===================================================================== *)
(** ** The proxy handler on integer keys *)
(* ===================================================================== *)

Lemma Qred_inject_Z (i : Z) : Qred (inject_Z i) = inject_Z i.
Proof. apply Qcanon.Qred_identity. simpl. apply Z.gcd_1_r. Qed.

Lemma index_ok_inject_Z (this : Uint1Array) (i : Z) :
  index_ok this (inject_Z i) = (0 <=? i) && (i <? bitLength this).
Proof.
  unfold index_ok, Number_isInteger. rewrite Qred_inject_Z. simpl.
  unfold Qle_bool. simpl. rewrite !Z.mul_1_r.
  rewrite Z.ltb_antisym. reflexivity.
Qed.

(** The handler accepts a key exactly when it is an integer inside the
    window. *)
Lemma index_ok_iff (this : Uint1Array) (index : Q) :
  index_ok this index = true <->
  exists i : Z, (index == inject_Z i)%Q /\ 0 <= i < bitLength this.
Proof.
  split.
  - unfold index_ok, Number_isInteger. intros H.
    apply andb_true_iff in H as [H Hlt]. apply andb_true_iff in H as [Hint Hge].
    apply Pos.eqb_eq in Hint. apply Qle_bool_iff in Hge.
    apply negb_true_iff in Hlt.
    assert (Hq : (index == inject_Z (Qnum (Qred index)))%Q).
    { rewrite <- (Qred_correct index) at 1.
      destruct (Qred index) as [n d]. simpl in *. subst d. reflexivity. }
    exists (Qnum (Qred index)). split; [exact Hq |].
    rewrite Hq in Hge.
    split.
    + unfold Qle in Hge. simpl in Hge. lia.
    + destruct (Z.lt_ge_cases (Qnum (Qred index)) (bitLength this)) as [Hl | Hl]; [exact Hl |].
      assert (Hle : (inject_Z (bitLength this) <= index)%Q).
      { rewrite Hq. unfold Qle. simpl. lia. }
      apply Qle_bool_iff in Hle. congruence.
  - intros (i & Hq & Hi).
    assert (Hok : index_ok this (inject_Z i) = true).
    { rewrite index_ok_inject_Z. apply andb_true_iff. split; [apply Z.leb_le | apply Z.ltb_lt]; lia. }
    unfold index_ok, Number_isInteger in *.
    rewrite (Qred_complete _ _ Hq).
    apply andb_true_iff in Hok as [Hok Hlt]. apply andb_true_iff in Hok as [Hint Hge].
    rewrite Hint. simpl.
    apply andb_true_iff. split.
    + apply Qle_bool_iff. apply Qle_bool_iff in Hge. rewrite Hq. exact Hge.
    + apply negb_true_iff. apply negb_true_iff in Hlt.
      destruct (Qle_bool (inject_Z (bitLength this)) index) eqn:E; [| reflexivity].
      apply Qle_bool_iff in E. rewrite Hq in E. apply Qle_bool_iff in E. congruence.
Qed.

Section ValidVector.
Variables (h : list (list Z)) (this : Uint1Array) (buf : list Z).
Hypothesis Hbuf : h !! buffer (internal this) = Some buf.
Hypothesis Hoff : 0 <= bitOffset this.
Hypothesis Hwin : bitOffset this + bitLength this <= 8 * Z.of_nat (length buf).

Lemma get_element_in_range (i : Z) :
  0 <= i < bitLength this ->
  get_element this i h = Normal (Num (buf_bit buf (i + bitOffset this))) h.
Proof using Hbuf Hoff Hwin.
  intros Hi. unfold get_element, proxy_get.
  rewrite index_ok_inject_Z, Qred_inject_Z. simpl.
  destruct (Z.leb_spec 0 i); [| lia].
  destruct (Z.ltb_spec i (bitLength this)); [| lia]. simpl.
  unfold bind. rewrite (getUint1_spec _ _ buf) by (trivial || lia).
  reflexivity.
Qed.

Lemma proxy_set_in_range (i : Z) (value : JsValue) :
  0 <= i < bitLength this ->
  proxy_set this (inject_Z i) value h
  = Normal true (<[buffer (internal this) := buf_set buf (i + bitOffset this) value]> h).
Proof using Hbuf Hoff Hwin.
  intros Hi. unfold proxy_set.
  rewrite index_ok_inject_Z, Qred_inject_Z. simpl.
  destruct (Z.leb_spec 0 i); [| lia].
  destruct (Z.ltb_spec i (bitLength this)); [| lia]. simpl.
  unfold bind. rewrite (setUint1_spec _ _ buf) by (trivial || lia).
  reflexivity.
Qed.

Lemma put_element_in_range (i : Z) (value : JsValue) :
  0 <= i < bitLength this ->
  put_element this i value h
  = Normal tt (<[buffer (internal this) := buf_set buf (i + bitOffset this) value]> h).
Proof using Hbuf Hoff Hwin.
  intros Hi. unfold put_element, bind. rewrite proxy_set_in_range by lia.
  reflexivity.
Qed.
End ValidVector.

(* ===================================================================== *)
(** ** Loops *)
(* ===================================================================== *)

Lemma heap_insert_lookup (h : list (list Z)) (id : nat) (buf buf' : list Z) :
  h !! id = Some buf -> <[id := buf']> h !! id = Some buf'.
Proof. intros H. apply list_lookup_insert_eq. eapply lookup_lt_Some, H. Qed.

(** A loop over [[lo, hi)] whose body writes bit [i + o] with [val i]:
    afterwards the bits of the range hold the low bits of the values and
    every other bit of the buffer is as before. *)
Lemma for_loop_writes (id : nat) (o lo hi : Z) (L : nat) (val : Z -> JsValue)
    (body : Z -> JS unit) :
  0 <= lo + o -> hi + o <= 8 * Z.of_nat L ->
  (forall i (h : list (list Z)) (buf : list Z),
      lo <= i < hi -> h !! id = Some buf -> length buf = L ->
      body i h = Normal tt (<[id := buf_set buf (i + o) (val i)]> h)) ->
  forall (n : nat) (s : Z) (h : list (list Z)) (buf : list Z),
    h !! id = Some buf -> length buf = L ->
    lo <= s -> s + Z.of_nat n <= hi ->
    exists buf' : list Z,
      for_loop s n body h = Normal tt (<[id := buf']> h) /\
      length buf' = L /\
      forall j, 0 <= j ->
        buf_bit buf' j
        = if (s + o <=? j) && (j <? s + o + Z.of_nat n)
          then and1 (val (j - o)) else buf_bit buf j.
Proof.
  intros Hlo Hhi Hbody n. induction n as [| n IH]; intros s h buf Hbuf Hlen Hs Hn.
  - exists buf. split; [| split].
    + simpl. unfold ret. rewrite list_insert_id by exact Hbuf. reflexivity.
    + exact Hlen.
    + intros j Hj.
      destruct (Z.leb_spec (s + o) j), (Z.ltb_spec j (s + o + Z.of_nat 0)); simpl; trivial; lia.
  - set (buf1 := buf_set buf (s + o) (val s)).
    assert (Hlen1 : length buf1 = L) by (unfold buf1; rewrite buf_set_length; exact Hlen).
    destruct (IH (s + 1) (<[id := buf1]> h) buf1) as (buf' & Hrun & Hlen' & Hbits);
      [eapply heap_insert_lookup, Hbuf | exact Hlen1 | lia | lia |].
    exists buf'. split; [| split].
    + simpl. unfold bind. rewrite (Hbody s h buf) by (trivial || lia).
      fold buf1. rewrite Hrun, list_insert_insert_eq. reflexivity.
    + exact Hlen'.
    + intros j Hj. rewrite Hbits by exact Hj.
      unfold buf1. rewrite buf_bit_set by lia.
      destruct (Z.leb_spec (s + 1 + o) j), (Z.ltb_spec j (s + 1 + o + Z.of_nat n)),
               (Z.leb_spec (s + o) j), (Z.ltb_spec j (s + o + Z.of_nat (S n))),
               (Z.eqb_spec j (s + o)); simpl; trivial; try lia.
      subst j. f_equal. f_equal. lia.
Qed.

(** Draining the iterator of a valid vector reads the bits of its window
    and leaves the heap alone. *)
Lemma iterate_from_spec (h : list (list Z)) (this : Uint1Array) (buf : list Z) :
  h !! buffer (internal this) = Some buf ->
  0 <= bitOffset this ->
  bitOffset this + bitLength this <= 8 * Z.of_nat (length buf) ->
  forall (n : nat) (i : Z),
    0 <= i -> i + Z.of_nat n <= bitLength this ->
    exists l : list JsValue,
      iterate_from this i n h = Normal l h /\
      length l = n /\
      forall k : nat, (k < n)%nat ->
        l !! k = Some (Num (buf_bit buf (i + Z.of_nat k + bitOffset this))).
Proof.
  intros Hbuf Hoff Hwin n. induction n as [| n IH]; intros i Hi Hn.
  - exists []. repeat split. intros k Hk. lia.
  - destruct (IH (i + 1)) as (l & Hrun & Hlen & Hl); [lia | lia |].
    exists (Num (buf_bit buf (i + bitOffset this)) :: l). split; [| split].
    + simpl. unfold bind.
      rewrite (get_element_in_range h this buf) by (trivial || lia).
      rewrite Hrun. reflexivity.
    + simpl. rewrite Hlen. reflexivity.
    + intros [| k] Hk; simpl.
      * do 3 f_equal. lia.
      * rewrite Hl by lia. do 3 f_equal. lia.
Qed.

Lemma buf_bit_01 (buf : list Z) (j : Z) : buf_bit buf j = 0 \/ buf_bit buf j = 1.
Proof.
  unfold buf_bit. destruct (buf !! Z.to_nat (j / 8)) as [b |]; [| left; reflexivity].
  destruct (Z.testbit b (7 - j mod 8)); [right | left]; reflexivity.
Qed.

(* ===================================================================== *)
(** ** BitDataView: addressing and round trip *)
(* ===================================================================== *)

Lemma spec_bit_mask_pow2 (i : Z) : 0 <= i -> spec_bit_mask i = 2 ^ (7 - i mod 8).
Proof.
  intros Hi. rewrite <- js_shr_mask by exact Hi.
  unfold spec_bit_mask, js_shr. rewrite Z.rem_mod_nonneg by lia.
  assert (Hk : 0 <= i mod 8 < 8) by (apply Z.mod_pos_bound; lia).
  f_equal. change 31 with (Z.ones 5). rewrite Z.land_ones by lia.
  rewrite (Z.mod_small (i mod 8)); [reflexivity | change (2 ^ 5) with 32; lia].
Qed.

(** C3. For every bit offset inside the buffer, [getUint1] and [setUint1]
    both address the byte at index [floor(bitOffset / 8)] under the mask
    [0x80 >> (bitOffset mod 8)]: [getUint1] returns whether that byte has
    the mask's bit, [setUint1] replaces that byte by itself with the mask
    or-ed in or and-ed out (and touches nothing else), and the mask is bit
    [7 - bitOffset mod 8], so that offset 0 of a byte is its most
    significant bit. *)
Theorem C3_bit_addressing (view : BitDataView) (h : list (list Z)) (buf : list Z)
    (i : Z) (value : JsValue) :
  h !! buffer view = Some buf ->
  0 <= i < 8 * Z.of_nat (length buf) ->
  exists b : Z,
    buf !! Z.to_nat (spec_byte_index i) = Some b /\
    spec_bit_mask i = 2 ^ (7 - i mod 8) /\
    getUint1 view i h
    = Normal (if truthy (Z.land b (spec_bit_mask i)) then 1 else 0) h /\
    getUint1 view i h = Normal (if Z.testbit b (7 - i mod 8) then 1 else 0) h /\
    setUint1 view i value h
    = Normal tt
        (<[buffer view :=
             <[Z.to_nat (spec_byte_index i) :=
                 (if truthy (and1 value) then Z.lor b (spec_bit_mask i)
                  else Z.land b (Z.lnot (spec_bit_mask i))) mod 256]> buf]> h).
Proof.
  intros Hbuf Hi. pose proof (byte_index_bounds _ _ Hi) as Hb.
  destruct (lookup_lt_is_Some_2 buf (Z.to_nat (i / 8))) as [b Hlk]; [lia |].
  assert (Hk : 0 <= i mod 8 < 8) by (apply Z.mod_pos_bound; lia).
  exists b. unfold spec_byte_index.
  rewrite spec_bit_mask_pow2 by lia.
  rewrite (getUint1_spec _ _ _ _ Hbuf Hi), (setUint1_spec _ _ _ _ _ Hbuf Hi).
  unfold buf_bit, buf_set. rewrite Hlk, truthy_land_pow2 by lia.
  repeat split; reflexivity || exact Hlk.
Qed.

Lemma C3_bit_addressing_witness :
  exists b : Z,
    [160; 0] !! Z.to_nat (spec_byte_index 10) = Some b /\
    spec_bit_mask 10 = 2 ^ (7 - 10 mod 8) /\
    getUint1 {| buffer := 0 |} 10 [[160; 0]]
    = Normal (if truthy (Z.land b (spec_bit_mask 10)) then 1 else 0) [[160; 0]] /\
    getUint1 {| buffer := 0 |} 10 [[160; 0]]
    = Normal (if Z.testbit b (7 - 10 mod 8) then 1 else 0) [[160; 0]] /\
    setUint1 {| buffer := 0 |} 10 (Num 1) [[160; 0]]
    = Normal tt
        (<[0%nat :=
             <[Z.to_nat (spec_byte_index 10) :=
                 (if truthy (and1 (Num 1)) then Z.lor b (spec_bit_mask 10)
                  else Z.land b (Z.lnot (spec_bit_mask 10))) mod 256]> [160; 0]]>
           [[160; 0]]).
Proof.
  apply (C3_bit_addressing {| buffer := 0 |} [[160; 0]] [160; 0] 10 (Num 1)).
  - reflexivity.
  - simpl. lia.
Defined.

(** C4. For every buffer state, every bit offset [i] inside the buffer and
    every [v] in {0, 1}: [setUint1(i, v)] completes; afterwards
    [getUint1(i)] returns [v]; every other bit offset reads as before; the
    bytes other than the one containing bit [i] are the same, the other
    seven bits of that byte are the same, the buffer keeps its length and
    the other buffers of the heap are untouched. *)
Theorem C4_setUint1_roundtrip (view : BitDataView) (h : list (list Z)) (buf : list Z)
    (i v : Z) :
  h !! buffer view = Some buf ->
  0 <= i < 8 * Z.of_nat (length buf) ->
  v = 0 \/ v = 1 ->
  exists buf' : list Z,
    setUint1 view i (Num v) h = Normal tt (<[buffer view := buf']> h) /\
    length buf' = length buf /\
    getUint1 view i (<[buffer view := buf']> h) = Normal v (<[buffer view := buf']> h) /\
    (forall j x, 0 <= j < 8 * Z.of_nat (length buf) -> j <> i ->
       getUint1 view j h = Normal x h ->
       getUint1 view j (<[buffer view := buf']> h) = Normal x (<[buffer view := buf']> h)) /\
    (forall k : nat, k <> Z.to_nat (i / 8) -> buf' !! k = buf !! k) /\
    (forall b b' p, buf !! Z.to_nat (i / 8) = Some b -> buf' !! Z.to_nat (i / 8) = Some b' ->
       0 <= p < 8 -> p <> 7 - i mod 8 -> Z.testbit b' p = Z.testbit b p) /\
    (forall id : nat, id <> buffer view -> <[buffer view := buf']> h !! id = h !! id).
Proof.
  intros Hbuf Hi Hv. pose proof (byte_index_bounds _ _ Hi) as Hb.
  assert (Hk : 0 <= i mod 8 < 8) by (apply Z.mod_pos_bound; lia).
  exists (buf_set buf i (Num v)).
  pose proof (heap_insert_lookup h _ buf (buf_set buf i (Num v)) Hbuf) as Hbuf'.
  split; [apply setUint1_spec; assumption |].
  split; [apply buf_set_length |].
  split.
  { rewrite (getUint1_spec _ _ _ _ Hbuf') by (rewrite buf_set_length; exact Hi).
    rewrite buf_bit_set, Z.eqb_refl, and1_of_bit by (trivial || lia). reflexivity. }
  split.
  { intros j x Hj Hne Hget.
    rewrite (getUint1_spec _ _ _ _ Hbuf Hj) in Hget. injection Hget as <-.
    rewrite (getUint1_spec _ _ _ _ Hbuf') by (rewrite buf_set_length; exact Hj).
    rewrite buf_bit_set by lia.
    destruct (Z.eqb_spec j i); [contradiction | reflexivity]. }
  split.
  { intros k Hne. unfold buf_set.
    destruct (buf !! Z.to_nat (i / 8)); [| reflexivity].
    apply list_lookup_insert_ne. auto. }
  split.
  { intros b b' p Hlk Hlk' Hp Hne. unfold buf_set in Hlk'. rewrite Hlk in Hlk'.
    rewrite list_lookup_insert_eq in Hlk' by (apply lookup_lt_Some in Hlk; exact Hlk).
    injection Hlk' as <-. change (Z.land (ToInt32 v) 1) with (and1 (Num v)).
    rewrite new_byte_testbit by lia.
    destruct (Z.eqb_spec p (7 - i mod 8)); [contradiction | reflexivity]. }
  intros id Hne. apply list_lookup_insert_ne. auto.
Qed.

Lemma C4_setUint1_roundtrip_witness :
  exists buf' : list Z,
    setUint1 {| buffer := 0 |} 10 (Num 1) [[160; 0]] = Normal tt (<[0%nat := buf']> [[160; 0]]) /\
    length buf' = 2%nat /\
    getUint1 {| buffer := 0 |} 10 (<[0%nat := buf']> [[160; 0]])
    = Normal 1 (<[0%nat := buf']> [[160; 0]]) /\
    (forall j x, 0 <= j < 16 -> j <> 10 ->
       getUint1 {| buffer := 0 |} j [[160; 0]] = Normal x [[160; 0]] ->
       getUint1 {| buffer := 0 |} j (<[0%nat := buf']> [[160; 0]])
       = Normal x (<[0%nat := buf']> [[160; 0]])) /\
    (forall k : nat, k <> 1%nat -> buf' !! k = [160; 0] !! k) /\
    (forall b b' p, [160; 0] !! 1%nat = Some b -> buf' !! 1%nat = Some b' ->
       0 <= p < 8 -> p <> 5 -> Z.testbit b' p = Z.testbit b p) /\
    (forall id : nat, id <> 0%nat -> <[0%nat := buf']> [[160; 0]] !! id = [[160; 0]] !! id).
Proof.
  apply (C4_setUint1_roundtrip {| buffer := 0 |} [[160; 0]] [160; 0] 10 1).
  - reflexivity.
  - simpl. lia.
  - right. reflexivity.
Defined.

(* ===================================================================== *)
(** ** Construction *)
(* ===================================================================== *)

Lemma ceil_div8_bounds (n : Z) :
  0 <= n -> 0 <= ceil_div8 n /\ n <= 8 * ceil_div8 n < n + 8.
Proof.
  intros Hn. unfold ceil_div8.
  pose proof (Z.div_mod (- n) 8 ltac:(lia)).
  pose proof (Z.mod_pos_bound (- n) 8 ltac:(lia)). lia.
Qed.

Lemma heap_alloc_lookup (h : list (list Z)) (buf : list Z) :
  (h ++ [buf]) !! length h = Some buf.
Proof. apply list_lookup_middle. reflexivity. Qed.

Lemma heap_alloc_insert (h : list (list Z)) (buf buf' : list Z) :
  <[length h := buf']> (h ++ [buf]) = h ++ [buf'].
Proof.
  rewrite insert_app_r_alt by lia. rewrite Nat.sub_diag. reflexivity.
Qed.

(** The array-like branch of the constructor: a fresh buffer is appended to
    the heap and bit [j] of it holds the low bit of element [j]. *)
Lemma Uint1Array_new_items (source : Source) (items : list JsValue)
    (offset len : option Z) (h : list (list Z)) :
  source = SrcArrayLike items \/ source = SrcIterable items ->
  exists buf' : list Z,
    Uint1Array_new source offset len h
    = Normal {| bitOffset := 0; bitLength := Z.of_nat (length items);
                internal := {| buffer := length h |} |} (h ++ [buf']) /\
    Z.of_nat (length buf') = ceil_div8 (Z.of_nat (length items)) /\
    forall j, 0 <= j < Z.of_nat (length items) ->
      buf_bit buf' j = and1 (array_get items j).
Proof.
  intros Hsrc.
  set (n := Z.of_nat (length items)).
  destruct (ceil_div8_bounds n ltac:(lia)) as [Hc0 Hc].
  set (zeros := replicate (Z.to_nat (ceil_div8 n)) 0).
  assert (Hz : Z.of_nat (length zeros) = ceil_div8 n).
  { unfold zeros. rewrite length_replicate. lia. }
  destruct (for_loop_writes (length h) 0 0 n (length zeros) (array_get items)
              (fun i => setUint1 {| buffer := length h |} i (array_get items i)))
    with (n := length items) (s := 0) (h := h ++ [zeros]) (buf := zeros)
    as (buf' & Hrun & Hlen & Hbits).
  - lia.
  - lia.
  - intros i h0 buf Hi Hbuf Hlen. rewrite Z.add_0_r.
    apply setUint1_spec; [exact Hbuf | lia].
  - apply heap_alloc_lookup.
  - reflexivity.
  - lia.
  - fold n. lia.
  - exists buf'. split; [| split].
    + assert (Hnew : Uint1Array_new source offset len h
                     = (let* b := new_ArrayBuffer (ceil_div8 n) in
                        for_loop 0 (length items)
                          (fun i => setUint1 {| buffer := b |} i (array_get items i)) ;;
                        ret {| bitOffset := 0; bitLength := n;
                               internal := {| buffer := b |} |}) h)
        by (destruct Hsrc as [-> | ->]; reflexivity).
      rewrite Hnew. unfold bind, new_ArrayBuffer. fold zeros.
      rewrite Hrun, heap_alloc_insert. reflexivity.
    + rewrite Hlen. exact Hz.
    + intros j Hj. rewrite Hbits by lia.
      destruct (Z.leb_spec (0 + 0) j), (Z.ltb_spec j (0 + 0 + Z.of_nat (length items)));
        simpl; try lia.
      rewrite Z.sub_0_r. reflexivity.
Qed.

(** The buffer branch on an [ArrayBuffer] of the heap. *)
Lemma Uint1Array_new_view (h : list (list Z)) (b : nat) (buf : list Z) (offset len : Z) :
  h !! b = Some buf ->
  0 <= offset -> 0 <= len -> offset + len <= 8 * Z.of_nat (length buf) ->
  Uint1Array_new (SrcArrayBuffer b) (Some offset) (Some len) h
  = Normal {| bitOffset := offset; bitLength := len; internal := {| buffer := b |} |} h.
Proof.
  intros Hbuf Ho Hl Hw. unfold Uint1Array_new. simpl.
  unfold bind, source_byteLength. rewrite Hbuf. simpl.
  destruct (Z.ltb_spec offset 0); [lia |].
  destruct (Z.ltb_spec len 0); [lia |].
  destruct (Z.gtb_spec offset (Z.of_nat (length buf) * 8)); [lia |].
  destruct (Z.gtb_spec (len + offset) (Z.of_nat (length buf) * 8)); [lia |].
  reflexivity.
Qed.

(** Every vector the constructor returns is valid in the heap it leaves,
    whatever the branch. *)
Lemma Uint1Array_new_valid (source : Source) (offset len : option Z)
    (h h' : list (list Z)) (a : Uint1Array) :
  (forall b, source = SrcArrayBuffer b -> is_Some (h !! b)) ->
  Uint1Array_new source offset len h = Normal a h' ->
  valid h' a.
Proof.
  intros Hsrc. destruct source as [| n | b | a0 | items | items].
  - unfold Uint1Array_new. simpl. unfold bind, new_ArrayBuffer, ret.
    intros [= <- <-]. eexists. split; [apply heap_alloc_lookup |]. simpl. lia.
  - unfold Uint1Array_new. simpl. destruct (Z.ltb_spec n 0); [discriminate |].
    unfold bind, new_ArrayBuffer, ret. intros [= <- <-].
    destruct (ceil_div8_bounds n ltac:(lia)).
    eexists. split; [apply heap_alloc_lookup |]. simpl.
    rewrite length_replicate. lia.
  - destruct (Hsrc b eq_refl) as [buf Hbuf].
    unfold Uint1Array_new. simpl. unfold bind, source_byteLength. rewrite Hbuf. simpl.
    set (o := default 0 offset).
    set (l := default (Z.of_nat (length buf) * 8 - o) len).
    destruct (Z.ltb_spec o 0); [discriminate |].
    destruct (Z.ltb_spec l 0); [discriminate |].
    destruct (Z.gtb_spec o (Z.of_nat (length buf) * 8)); [discriminate |].
    destruct (Z.gtb_spec (l + o) (Z.of_nat (length buf) * 8)); [discriminate |].
    unfold ret. intros [= <- <-]. exists buf. simpl. split; [exact Hbuf | lia].
  - unfold Uint1Array_new. simpl. unfold bind, source_byteLength.
    repeat match goal with
           | |- context [if ?c then _ else _] => destruct c; try discriminate
           end.
  - destruct (Uint1Array_new_items (SrcArrayLike items) items offset len h) as (buf' & Hnew & Hlen & _);
      [left; reflexivity |].
    rewrite Hnew. intros [= <- <-].
    destruct (ceil_div8_bounds (Z.of_nat (length items)) ltac:(lia)).
    exists buf'. split; [apply heap_alloc_lookup |]. simpl. lia.
  - destruct (Uint1Array_new_items (SrcIterable items) items offset len h) as (buf' & Hnew & Hlen & _);
      [right; reflexivity |].
    rewrite Hnew. intros [= <- <-].
    destruct (ceil_div8_bounds (Z.of_nat (length items)) ltac:(lia)).
    exists buf'. split; [apply heap_alloc_lookup |]. simpl. lia.
Qed.

(* ===================================================================== *)
(** ** Array.prototype.sort with the default comparator *)
(* ===================================================================== *)

Lemma sort_insert_perm (compareFn : Z -> Z -> Z) (x : Z) (l : list Z) :
  Permutation (x :: l) (sort_insert compareFn x l).
Proof.
  induction l as [| y l IH]; simpl; [reflexivity |].
  destruct (compareFn x y >? 0); [| reflexivity].
  rewrite perm_swap. apply perm_skip. exact IH.
Qed.

Lemma sort_insert_sorted (x : Z) (l : list Z) :
  Sorted Z.le l -> Sorted Z.le (sort_insert default_compareFn x l).
Proof.
  unfold default_compareFn. induction l as [| y l IH]; intros Hs; simpl.
  - repeat constructor.
  - destruct (Z.gtb_spec (x - y) 0) as [Hgt | Hle].
    + apply Sorted_inv in Hs as [Hs Hhd]. constructor; [apply IH; exact Hs |].
      destruct l as [| z l]; simpl.
      * constructor. lia.
      * destruct (Z.gtb_spec (x - z) 0); constructor; [| lia].
        apply HdRel_inv in Hhd. exact Hhd.
    + constructor; [exact Hs |]. constructor. lia.
Qed.

Lemma insertion_sort_perm (compareFn : Z -> Z -> Z) (l : list Z) :
  Permutation l (foldr (sort_insert compareFn) [] l).
Proof.
  induction l as [| x l IH]; simpl; [reflexivity |].
  rewrite <- sort_insert_perm. apply perm_skip. exact IH.
Qed.

Lemma insertion_sort_sorted (l : list Z) :
  Sorted Z.le (foldr (sort_insert default_compareFn) [] l).
Proof.
  induction l as [| x l IH]; simpl; [constructor | apply sort_insert_sorted, IH].
Qed.

Lemma js_numbers_Num (l : list Z) : js_numbers (Num <$> l) = l.
Proof.
  unfold js_numbers. induction l as [| x l IH]; simpl; [reflexivity |].
  f_equal. exact IH.
Qed.

Lemma js_undefineds_Num (l : list Z) : js_undefineds (Num <$> l) = [].
Proof.
  unfold js_undefineds. induction l as [| x l IH]; simpl; [reflexivity | exact IH].
Qed.

Lemma Array_sort_Num (compareFn : Z -> Z -> Z) (l : list Z) :
  Array_sort compareFn (Num <$> l) = Num <$> foldr (sort_insert compareFn) [] l.
Proof.
  unfold Array_sort. rewrite js_numbers_Num, js_undefineds_Num. apply app_nil_r.
Qed.

(* ===================================================================== *)
(** ** Views: subarray and slice *)
(* ===================================================================== *)

Lemma Uint1Array_subarray_in_range (h : list (list Z)) (this : Uint1Array) (buf : list Z)
    (x y : Z) :
  h !! buffer (internal this) = Some buf ->
  0 <= bitOffset this ->
  bitOffset this + bitLength this <= 8 * Z.of_nat (length buf) ->
  0 <= x <= y -> y <= bitLength this ->
  Uint1Array_subarray this (Some x) (Some y) h
  = Normal {| bitOffset := bitOffset this + x; bitLength := y - x;
              internal := {| buffer := buffer (internal this) |} |} h.
Proof.
  intros Hbuf Hoff Hwin Hxy Hy. unfold Uint1Array_subarray. simpl.
  assert (Hx0 : (x <? 0) = false) by (apply Z.ltb_ge; lia).
  assert (Hy0 : (y <? 0) = false) by (apply Z.ltb_ge; lia).
  assert (HyN : (y >? bitLength this) = false) by (rewrite Z.gtb_ltb; apply Z.ltb_ge; lia).
  assert (Hgt : (x >? y) = false) by (rewrite Z.gtb_ltb; apply Z.ltb_ge; lia).
  rewrite Hx0, Hx0, Hy0, HyN, Hgt.
  apply (Uint1Array_new_view h _ buf); trivial; lia.
Qed.



(** Given a [Uint1Array], the constructor takes the buffer branch and ends
    with an exception, whatever the vector and the heap. *)
Lemma Uint1Array_new_vector_throws (h : list (list Z)) (a : Uint1Array) :
  exists e : Exception, Uint1Array_new (SrcUint1Array a) None None h = Throw e h.
Proof.
  unfold Uint1Array_new. simpl. unfold bind, source_byteLength, throw.
  destruct (Uint1Array_byteLength a * 8 - 0 <? 0); [eexists; reflexivity |].
  destruct (0 >? Uint1Array_byteLength a * 8); [eexists; reflexivity |].
  destruct (Uint1Array_byteLength a * 8 - 0 + 0 >? Uint1Array_byteLength a * 8);
    eexists; reflexivity.
Qed.

(** C1 (the code departs from it). [slice] hands the subarray, a
    [Uint1Array], to the constructor; a [Uint1Array] has a [byteLength], so
    the constructor takes the buffer branch and [new BitDataView(source)]
    throws.  Hence [slice] ends by throwing for every vector and every
    range: no copy is made and no vector is returned.  At
    [Uint1Array.of(1,0,1,1).slice(1, 3)] the exception is the [TypeError]
    of the [DataView] constructor. *)
Theorem C1_slice_throws :
  (forall (h : list (list Z)) (a : Uint1Array) (start end_ : option Z),
      exists (e : Exception) (h' : list (list Z)),
        Uint1Array_slice a start end_ h = Throw e h') /\
  (let* a := Uint1Array_of [Num 1; Num 0; Num 1; Num 1] in
   Uint1Array_slice a (Some 1) (Some 3)) []
  = Throw TypeError_NotArrayBuffer [[176]].
Proof.
  split; [| vm_compute; reflexivity].
  intros h a start end_. unfold Uint1Array_slice, bind.
  destruct (Uint1Array_subarray a start end_ h) as [sub h1 | e h1].
  - destruct (Uint1Array_new_vector_throws h1 sub) as [e He].
    exists e, h1. exact He.
  - exists e, h1. reflexivity.
Qed.

(** C6 (the code departs from it). [new Uint1Array(8).subarray(9)]: [begin]
    is 9 and [end] is 8, so [begin > end] and the length is 0, but [begin]
    is not clamped to the vector's length, and the constructor rejects the
    offset 9 as outside the one-byte buffer.  Whether a [begin] past the
    length throws depends on the unused bits of the last byte:
    [new Uint1Array(5).subarray(7)] returns an empty view at offset 7. *)
Theorem C6_subarray_begin_past_buffer_throws :
  (let* a := Uint1Array_new (SrcNumber 8) None None in
   Uint1Array_subarray a (Some 9) None) []
  = Throw (RangeError_OffsetOutside 9) [[0]] /\
  (let* a := Uint1Array_new (SrcNumber 5) None None in
   Uint1Array_subarray a (Some 7) None) []
  = Normal {| bitOffset := 7; bitLength := 0; internal := {| buffer := 0 |} |} [[0]].
Proof. split; vm_compute; reflexivity. Qed.

(* ===================================================================== *)
(** ** Out-of-range keys *)
(* ===================================================================== *)

Lemma index_ok_out_of_range (this : Uint1Array) (index : Q) :
  ~ (exists i : Z, (index == inject_Z i)%Q /\ 0 <= i < bitLength this) ->
  index_ok this index = false.
Proof.
  intros Hout. destruct (index_ok this index) eqn:E; [| reflexivity].
  exfalso. apply Hout, index_ok_iff, E.
Qed.

(** C5 as the code has it.  Element access outside the window changes
    nothing, and reads never throw; a write throws only through the
    strictness of the assigning code.  For every vector, every heap and
    every numeric key that is not an integer of [[0, bitLength)]
    (negative, fractional, or too large): the [get] trap returns
    [undefined]; the [set] trap returns [false]; the assignment completes
    in code that is not in strict mode and throws a [TypeError] in
    strict-mode code; all four leave the heap, hence every element and
    every byte, as it was.  In particular so do the reads [v[-1]], [v[N]]
    and the write [v[N] = 1] for [N] the length of [v], also as the
    module's own strict-mode code performs it. *)
Theorem C5_out_of_range_access (h : list (list Z)) (v : Uint1Array) :
  (forall (index : Q) (value : JsValue),
      ~ (exists i : Z, (index == inject_Z i)%Q /\ 0 <= i < bitLength v) ->
      proxy_get v index h = Normal Undefined h /\
      proxy_set v index value h = Normal false h /\
      assign_element false v index value h = Normal tt h /\
      assign_element true v index value h = Throw TypeError_TrapReturnedFalse h) /\
  proxy_get v (inject_Z (-1)) h = Normal Undefined h /\
  proxy_get v (inject_Z (bitLength v)) h = Normal Undefined h /\
  proxy_set v (inject_Z (bitLength v)) (Num 1) h = Normal false h /\
  assign_element false v (inject_Z (bitLength v)) (Num 1) h = Normal tt h /\
  assign_element true v (inject_Z (bitLength v)) (Num 1) h
  = Throw TypeError_TrapReturnedFalse h /\
  put_element v (bitLength v) (Num 1) h = Throw TypeError_TrapReturnedFalse h /\
  proxy_get v (1 # 2)%Q h = Normal Undefined h /\
  proxy_set v (1 # 2)%Q (Num 1) h = Normal false h.
Proof.
  assert (Hgen : forall (index : Q) (value : JsValue),
             ~ (exists i : Z, (index == inject_Z i)%Q /\ 0 <= i < bitLength v) ->
             proxy_get v index h = Normal Undefined h /\
             proxy_set v index value h = Normal false h /\
             assign_element false v index value h = Normal tt h /\
             assign_element true v index value h = Throw TypeError_TrapReturnedFalse h).
  { intros index value Hout. unfold assign_element, bind, proxy_get, proxy_set.
    rewrite (index_ok_out_of_range _ _ Hout). repeat split; reflexivity. }
  assert (Hint : forall n : Z, ~ 0 <= n < bitLength v ->
             ~ (exists i : Z, (inject_Z n == inject_Z i)%Q /\ 0 <= i < bitLength v)).
  { intros n Hn (i & Heq & Hi). unfold Qeq in Heq. simpl in Heq. lia. }
  assert (Hhalf : ~ (exists i : Z, ((1 # 2) == inject_Z i)%Q /\ 0 <= i < bitLength v)).
  { intros (i & Heq & _). unfold Qeq in Heq. simpl in Heq. lia. }
  assert (HN : ~ 0 <= bitLength v < bitLength v) by lia.
  destruct (Hgen _ (Num 1) (Hint _ HN)) as (HgetN & HsetN & HsloppyN & HstrictN).
  split; [exact Hgen |].
  split; [apply (Hgen _ Undefined), Hint; lia |].
  split; [exact HgetN |]. split; [exact HsetN |].
  split; [exact HsloppyN |]. split; [exact HstrictN |].
  split; [unfold put_element, bind; rewrite HsetN; reflexivity |].
  split; apply (Hgen _ (Num 1)), Hhalf.
Qed.

Lemma C5_out_of_range_access_witness :
  proxy_get {| bitOffset := 0; bitLength := 3; internal := {| buffer := 0 |} |}
    (inject_Z 7) [[160]] = Normal Undefined [[160]] /\
  proxy_set {| bitOffset := 0; bitLength := 3; internal := {| buffer := 0 |} |}
    (inject_Z 7) (Num 1) [[160]] = Normal false [[160]] /\
  assign_element false {| bitOffset := 0; bitLength := 3; internal := {| buffer := 0 |} |}
    (inject_Z 7) (Num 1) [[160]] = Normal tt [[160]] /\
  assign_element true {| bitOffset := 0; bitLength := 3; internal := {| buffer := 0 |} |}
    (inject_Z 7) (Num 1) [[160]] = Throw TypeError_TrapReturnedFalse [[160]].
Proof.
  apply (proj1 (C5_out_of_range_access [[160]]
                  {| bitOffset := 0; bitLength := 3; internal := {| buffer := 0 |} |})).
  intros (i & Heq & Hi). unfold Qeq in Heq. simpl in Heq, Hi. lia.
Defined.

(** C5 as the specification words it does not hold: on a vector of length
    3, the write [v[3] = 1] performed by strict-mode code, such as the
    module's own element writes, throws a [TypeError]. *)
Lemma C5_strict_write_raises :
  put_element {| bitOffset := 0; bitLength := 3; internal := {| buffer := 0 |} |}
    3 (Num 1) [[160]] = Throw TypeError_TrapReturnedFalse [[160]] /\
  assign_element true {| bitOffset := 0; bitLength := 3; internal := {| buffer := 0 |} |}
    (inject_Z 3) (Num 1) [[160]] = Throw TypeError_TrapReturnedFalse [[160]].
Proof. split; reflexivity. Qed.

(* ===================================================================== *)
(** ** A vector as the constructor's argument *)
(* ===================================================================== *)

Lemma Uint1Array_byteLength_nonneg (a : Uint1Array) :
  0 <= bitOffset a -> 0 <= bitLength a -> 0 <= Uint1Array_byteLength a.
Proof.
  intros Ho Hl. unfold Uint1Array_byteLength.
  destruct (ceil_div8_bounds (bitOffset a + bitLength a) ltac:(lia)) as [_ Hc].
  pose proof (Z.div_mod (bitOffset a) 8 ltac:(lia)).
  pose proof (Z.mod_pos_bound (bitOffset a) 8 ltac:(lia)). lia.
Qed.

(** C10. [new Uint1Array(a)] for a [Uint1Array] [a] never yields a vector:
    [a] is an object with a [byteLength], so the constructor takes the
    buffer branch, and construction ends with an exception and an unchanged
    heap (no buffer is allocated, nothing is copied).  For a vector with a
    non-negative window the validations pass and the exception is the
    [TypeError] of the [DataView] constructor, which is given [a] instead of
    an [ArrayBuffer]. *)
Theorem C10_new_from_Uint1Array_throws (h : list (list Z)) (a : Uint1Array) :
  typeof_object (SrcUint1Array a) = true /\
  has_byteLength (SrcUint1Array a) = true /\
  (exists e : Exception, Uint1Array_new (SrcUint1Array a) None None h = Throw e h) /\
  (0 <= bitOffset a -> 0 <= bitLength a ->
   Uint1Array_new (SrcUint1Array a) None None h = Throw TypeError_NotArrayBuffer h).
Proof.
  split; [reflexivity |]. split; [reflexivity |].
  split; [apply Uint1Array_new_vector_throws |].
  unfold Uint1Array_new. simpl. unfold bind, source_byteLength, throw.
  rewrite Z.sub_0_r, Z.add_0_r.
  intros Ho Hl. pose proof (Uint1Array_byteLength_nonneg a Ho Hl).
    destruct (Z.ltb_spec (Uint1Array_byteLength a * 8) 0); [lia |].
    destruct (Z.gtb_spec 0 (Uint1Array_byteLength a * 8)); [lia |].
    destruct (Z.gtb_spec (Uint1Array_byteLength a * 8) (Uint1Array_byteLength a * 8)); [lia |].
    reflexivity.
Qed.

Lemma C10_new_from_Uint1Array_throws_witness :
  Uint1Array_new
    (SrcUint1Array {| bitOffset := 0; bitLength := 3; internal := {| buffer := 0 |} |})
    None None [[160]]
  = Throw TypeError_NotArrayBuffer [[160]].
Proof.
  apply (proj2 (proj2 (proj2 (C10_new_from_Uint1Array_throws [[160]]
           {| bitOffset := 0; bitLength := 3; internal := {| buffer := 0 |} |}))));
    simpl; lia.
Defined.

(* ===================================================================== *)
(** ** set, the iterator and sort *)
(* ===================================================================== *)

Lemma array_get_lookup (array : list JsValue) (k : nat) (v : JsValue) :
  array !! k = Some v -> array_get array (Z.of_nat k) = v.
Proof.
  intros Hlk. unfold array_get.
  destruct (Z.ltb_spec (Z.of_nat k) 0); [lia |].
  rewrite Nat2Z.id, Hlk. reflexivity.
Qed.

(** A list that reads, position by position, the low bits of a list of
    0/1 elements is that list. *)
Lemma bits_read_back (l items : list JsValue) :
  length l = length items ->
  (forall k : nat, (k < length items)%nat ->
     l !! k = Some (Num (and1 (array_get items (Z.of_nat k))))) ->
  Forall is_bit items ->
  l = items.
Proof.
  intros Hlen Hl Hbits. apply list_eq. intros k.
  destruct (items !! k) as [v |] eqn:Hk.
  - rewrite Hl by (eapply lookup_lt_Some, Hk).
    rewrite (array_get_lookup _ _ _ Hk).
    rewrite Forall_lookup in Hbits.
    destruct (Hbits k v Hk) as [-> | ->]; reflexivity.
  - apply lookup_ge_None. apply lookup_ge_None in Hk. lia.
Qed.

(** [set] inside the window: it completes, touches only the vector's
    buffer, and overwrites exactly the bits of the target range. *)
Lemma Uint1Array_set_in_range (h : list (list Z)) (this : Uint1Array) (buf : list Z)
    (array : list JsValue) (offset : option Z) :
  h !! buffer (internal this) = Some buf ->
  0 <= bitOffset this ->
  bitOffset this + bitLength this <= 8 * Z.of_nat (length buf) ->
  0 <= default 0 offset ->
  default 0 offset + Z.of_nat (length array) <= bitLength this ->
  exists buf' : list Z,
    Uint1Array_set this array offset h
    = Normal tt (<[buffer (internal this) := buf']> h) /\
    length buf' = length buf /\
    forall j, 0 <= j ->
      buf_bit buf' j
      = if (default 0 offset + bitOffset this <=? j)
           && (j <? default 0 offset + bitOffset this + Z.of_nat (length array))
        then and1 (array_get array (j - (default 0 offset + bitOffset this)))
        else buf_bit buf j.
Proof.
  intros Hbuf Hoff Hwin Ho Hfit.
  set (off := default 0 offset) in *.
  destruct (for_loop_writes (buffer (internal this)) (off + bitOffset this)
              0 (Z.of_nat (length array)) (length buf) (array_get array)
              (fun i => put_element this (i + off) (array_get array i)))
    with (n := length array) (s := 0) (h := h) (buf := buf)
    as (buf' & Hrun & Hlen & Hbits).
  - lia.
  - lia.
  - intros i h0 buf0 Hi Hbuf0 Hlen0.
    rewrite (put_element_in_range h0 this buf0) by (trivial || lia).
    do 3 f_equal. lia.
  - exact Hbuf.
  - reflexivity.
  - lia.
  - lia.
  - exists buf'. split; [| split].
    + unfold Uint1Array_set. fold off.
      destruct (Z.ltb_spec off 0); [lia |].
      destruct (Z.gtb_spec (off + Z.of_nat (length array)) (bitLength this)); [lia |].
      simpl. exact Hrun.
    + exact Hlen.
    + intros j Hj. rewrite Hbits by exact Hj. reflexivity.
Qed.

(** The iterator of a valid vector yields the bits of its window. *)
Lemma Uint1Array_iterator_spec (h : list (list Z)) (this : Uint1Array) (buf : list Z) :
  h !! buffer (internal this) = Some buf ->
  0 <= bitOffset this -> 0 <= bitLength this ->
  bitOffset this + bitLength this <= 8 * Z.of_nat (length buf) ->
  exists l : list JsValue,
    Uint1Array_iterator this h = Normal l h /\
    Z.of_nat (length l) = bitLength this /\
    forall k : nat, (k < length l)%nat ->
      l !! k = Some (Num (buf_bit buf (Z.of_nat k + bitOffset this))).
Proof.
  intros Hbuf Hoff Hlen Hwin.
  destruct (iterate_from_spec h this buf Hbuf Hoff Hwin (Z.to_nat (bitLength this)) 0)
    as (l & Hrun & Hl & Hlk); [lia | lia |].
  exists l. split; [exact Hrun |]. split; [lia |].
  intros k Hk. rewrite Hlk by lia. reflexivity.
Qed.

(** C7. On a valid vector, [set(array, offset)] throws a [RangeError]
    exactly when [offset < 0] or [offset + array.length > bitLength]
    ([offset] defaults to 0); whenever it throws, the exception is that
    [RangeError] and the heap is the one before the call, so that no element
    was written; otherwise it completes. *)
Theorem C7_set_range_error (h : list (list Z)) (this : Uint1Array)
    (array : list JsValue) (offset : option Z) :
  valid h this ->
  ((exists (e : Exception) (h' : list (list Z)),
       Uint1Array_set this array offset h = Throw e h' /\ is_RangeError e = true)
   <-> (default 0 offset < 0 \/
        default 0 offset + Z.of_nat (length array) > bitLength this)) /\
  (forall (e : Exception) (h' : list (list Z)),
      Uint1Array_set this array offset h = Throw e h' ->
      e = RangeError_SetOffset /\ h' = h) /\
  (~ (default 0 offset < 0 \/
      default 0 offset + Z.of_nat (length array) > bitLength this) ->
   exists h' : list (list Z), Uint1Array_set this array offset h = Normal tt h').
Proof.
  intros (buf & Hbuf & Hoff & Hlen & Hwin).
  set (off := default 0 offset).
  assert (Hbad : off < 0 \/ off + Z.of_nat (length array) > bitLength this ->
                 Uint1Array_set this array offset h = Throw RangeError_SetOffset h).
  { intros Hc. unfold Uint1Array_set. fold off.
    destruct (Z.ltb_spec off 0); [reflexivity |].
    destruct (Z.gtb_spec (off + Z.of_nat (length array)) (bitLength this)); [reflexivity | lia]. }
  assert (Hgood : ~ (off < 0 \/ off + Z.of_nat (length array) > bitLength this) ->
                  exists h' : list (list Z), Uint1Array_set this array offset h = Normal tt h').
  { intros Hc.
    destruct (Uint1Array_set_in_range h this buf array offset) as (buf' & Hrun & _);
      trivial; fold off; try lia.
    eexists. exact Hrun. }
  assert (Hdec : (off < 0 \/ off + Z.of_nat (length array) > bitLength this) \/
                 ~ (off < 0 \/ off + Z.of_nat (length array) > bitLength this)) by lia.
  split; [| split].
  - split.
    + intros (e & h' & Hthrow & _). destruct Hdec as [Hc | Hc]; [exact Hc |].
      destruct (Hgood Hc) as [h'' Hrun]. congruence.
    + intros Hc. exists RangeError_SetOffset, h. split; [apply Hbad, Hc | reflexivity].
  - intros e h' Hthrow. destruct Hdec as [Hc | Hc].
    + rewrite (Hbad Hc) in Hthrow. injection Hthrow as <- <-. split; reflexivity.
    + destruct (Hgood Hc) as [h'' Hrun]. congruence.
  - exact Hgood.
Qed.

Lemma C7_set_range_error_witness :
  ((exists (e : Exception) (h' : list (list Z)),
       Uint1Array_set {| bitOffset := 0; bitLength := 3; internal := {| buffer := 0 |} |}
         [Num 1; Num 1] (Some 2) [[160]] = Throw e h' /\ is_RangeError e = true)
   <-> (2 < 0 \/ 2 + 2 > 3)) /\
  (forall (e : Exception) (h' : list (list Z)),
      Uint1Array_set {| bitOffset := 0; bitLength := 3; internal := {| buffer := 0 |} |}
        [Num 1; Num 1] (Some 2) [[160]] = Throw e h' ->
      e = RangeError_SetOffset /\ h' = [[160]]) /\
  (~ (2 < 0 \/ 2 + 2 > 3) ->
   exists h' : list (list Z),
     Uint1Array_set {| bitOffset := 0; bitLength := 3; internal := {| buffer := 0 |} |}
       [Num 1; Num 1] (Some 2) [[160]] = Normal tt h').
Proof.
  apply (C7_set_range_error [[160]]
           {| bitOffset := 0; bitLength := 3; internal := {| buffer := 0 |} |}
           [Num 1; Num 1] (Some 2)).
  exists [160]. simpl. repeat split; lia.
Defined.

(** C8. For every sequence of 0/1 integers, given to the constructor as an
    array-like or as an iterable: construction completes, the vector's
    length is the length of the sequence, and draining its iterator yields
    exactly the sequence, in order. *)
Theorem C8_construct_roundtrip (h : list (list Z)) (source : Source) (values : list Z) :
  Forall (fun v => v = 0 \/ v = 1) values ->
  source = SrcArrayLike (Num <$> values) \/ source = SrcIterable (Num <$> values) ->
  exists (a : Uint1Array) (h' : list (list Z)),
    Uint1Array_new source None None h = Normal a h' /\
    Uint1Array_length a = Z.of_nat (length values) /\
    Uint1Array_iterator a h' = Normal (Num <$> values) h'.
Proof.
  intros Hbits Hsrc.
  destruct (Uint1Array_new_items source (Num <$> values) None None h Hsrc)
    as (buf' & Hnew & Hlen & Hbuf').
  destruct (ceil_div8_bounds (Z.of_nat (length (Num <$> values))) ltac:(lia)) as [_ Hc].
  eexists _, _. split; [exact Hnew |].
  split; [unfold Uint1Array_length; simpl; rewrite length_fmap; reflexivity |].
  destruct (Uint1Array_iterator_spec (h ++ [buf'])
              {| bitOffset := 0; bitLength := Z.of_nat (length (Num <$> values));
                 internal := {| buffer := length h |} |} buf')
    as (l & Hrun & Hl & Hlk); simpl; try lia.
  { apply heap_alloc_lookup. }
  simpl in Hl. rewrite Hrun. f_equal.
  apply bits_read_back.
  - lia.
  - intros k Hk. rewrite Hlk by lia. simpl. rewrite Z.add_0_r, Hbuf' by lia. reflexivity.
  - apply Forall_fmap. eapply Forall_impl; [exact Hbits |].
    intros v [-> | ->]; [left | right]; reflexivity.
Qed.

Lemma C8_construct_roundtrip_witness :
  exists (a : Uint1Array) (h' : list (list Z)),
    Uint1Array_new (SrcArrayLike (Num <$> [1; 0; 1; 1; 0; 0; 1; 0; 1])) None None [] = Normal a h' /\
    Uint1Array_length a = 9 /\
    Uint1Array_iterator a h' = Normal (Num <$> [1; 0; 1; 1; 0; 0; 1; 0; 1]) h'.
Proof.
  apply (C8_construct_roundtrip [] (SrcArrayLike (Num <$> [1; 0; 1; 1; 0; 0; 1; 0; 1]))
           [1; 0; 1; 1; 0; 0; 1; 0; 1]).
  - repeat constructor; lia.
  - left. reflexivity.
Defined.

(** The elements read from a valid vector are numbers, each 0 or 1. *)
Lemma read_bits_Num (l : list JsValue) (f : nat -> Z) :
  (forall k : nat, (k < length l)%nat -> l !! k = Some (Num (f k))) ->
  (forall k : nat, f k = 0 \/ f k = 1) ->
  l = Num <$> js_numbers l /\ Forall (fun v => v = 0 \/ v = 1) (js_numbers l).
Proof.
  revert f. induction l as [| v l IH]; intros f Hlk Hf; [split; constructor |].
  pose proof (Hlk O ltac:(simpl; lia)) as H0. simpl in H0. injection H0 as ->.
  destruct (IH (fun k => f (S k))) as [Heq Hall].
  - intros k Hk. apply (Hlk (S k)). simpl. lia.
  - intros k. apply Hf.
  - unfold js_numbers in *. simpl. split.
    + f_equal. exact Heq.
    + constructor; [apply Hf | exact Hall].
Qed.

(** C9. [sort()] without a comparator, on a valid vector: it completes and
    returns the vector itself, having written only inside the vector's own
    window of its own buffer; the elements read afterwards are in
    non-decreasing order (all 0s before all 1s) and are a permutation of
    the elements read before.  In particular
    [Uint1Array.of(1,0,1,0).sort()] holds [0,0,1,1]. *)
Theorem C9_sort_default (h : list (list Z)) (a : Uint1Array) :
  valid h a ->
  (exists (before after : list Z) (buf buf' : list Z),
      Uint1Array_iterator a h = Normal (Num <$> before) h /\
      h !! buffer (internal a) = Some buf /\
      Uint1Array_sort a None h = Normal a (<[buffer (internal a) := buf']> h) /\
      Uint1Array_iterator a (<[buffer (internal a) := buf']> h)
      = Normal (Num <$> after) (<[buffer (internal a) := buf']> h) /\
      Sorted Z.le after /\
      Permutation before after /\
      length buf' = length buf /\
      (forall j, 0 <= j -> ~ bitOffset a <= j < bitOffset a + bitLength a ->
         buf_bit buf' j = buf_bit buf j)) /\
  (let* v := Uint1Array_of [Num 1; Num 0; Num 1; Num 0] in
   let* v := Uint1Array_sort v None in
   Uint1Array_iterator v) [] = Normal [Num 0; Num 0; Num 1; Num 1] [[48]].
Proof.
  intros (buf & Hbuf & Hoff & Hlen & Hwin).
  split; [| vm_compute; reflexivity].
  destruct (Uint1Array_iterator_spec h a buf Hbuf Hoff Hlen Hwin) as (l & Hit & Hl & Hlk).
  destruct (read_bits_Num l (fun k => buf_bit buf (Z.of_nat k + bitOffset a)) Hlk)
    as [Heq Hbits]; [intros k; apply buf_bit_01 |].
  set (before := js_numbers l) in *.
  set (after := foldr (sort_insert default_compareFn) [] before).
  assert (Hperm : Permutation before after) by apply insertion_sort_perm.
  assert (Hla : Z.of_nat (length (Num <$> after)) = bitLength a).
  { rewrite length_fmap, <- (Permutation_length Hperm), <- Hl, Heq, length_fmap.
    reflexivity. }
  destruct (Uint1Array_set_in_range h a buf (Num <$> after) None Hbuf Hoff Hwin)
    as (buf' & Hset & Hlen' & Hbuf'); [simpl; lia | simpl; lia |].
  simpl in Hbuf'.
  exists before, after, buf, buf'.
  split; [rewrite Hit, Heq at 1; reflexivity |].
  split; [exact Hbuf |].
  split.
  { unfold Uint1Array_sort, bind. rewrite Hit. simpl.
    rewrite Heq.
    rewrite Array_sort_Num. fold after. rewrite Hset. reflexivity. }
  split.
  { destruct (Uint1Array_iterator_spec (<[buffer (internal a) := buf']> h) a buf')
      as (l' & Hit' & Hl' & Hlk'); trivial; try lia.
    { eapply heap_insert_lookup, Hbuf. }
    rewrite Hit'. f_equal. apply bits_read_back.
    - lia.
    - intros k Hk. rewrite Hlk' by lia. rewrite Hbuf' by lia.
      destruct (Z.leb_spec (0 + bitOffset a) (Z.of_nat k + bitOffset a)); [| lia].
      destruct (Z.ltb_spec (Z.of_nat k + bitOffset a)
                  (0 + bitOffset a + Z.of_nat (length (Num <$> after)))); [| lia].
      simpl. do 4 f_equal. lia.
    - apply Forall_fmap. apply (Permutation_Forall Hperm).
      eapply Forall_impl; [exact Hbits |].
      intros v [-> | ->]; [left | right]; reflexivity. }
  split; [apply insertion_sort_sorted |].
  split; [exact Hperm |].
  split; [exact Hlen' |].
  intros j Hj Hout. rewrite Hbuf' by exact Hj.
  destruct (Z.leb_spec (0 + bitOffset a) j),
           (Z.ltb_spec j (0 + bitOffset a + Z.of_nat (length (Num <$> after))));
    simpl; trivial; lia.
Qed.

Lemma C9_sort_default_witness :
  (exists (before after : list Z) (buf buf' : list Z),
      Uint1Array_iterator {| bitOffset := 1; bitLength := 4; internal := {| buffer := 0 |} |}
        [[160]] = Normal (Num <$> before) [[160]] /\
      [[160]] !! 0%nat = Some buf /\
      Uint1Array_sort {| bitOffset := 1; bitLength := 4; internal := {| buffer := 0 |} |}
        None [[160]]
      = Normal {| bitOffset := 1; bitLength := 4; internal := {| buffer := 0 |} |}
          (<[0%nat := buf']> [[160]]) /\
      Uint1Array_iterator {| bitOffset := 1; bitLength := 4; internal := {| buffer := 0 |} |}
        (<[0%nat := buf']> [[160]])
      = Normal (Num <$> after) (<[0%nat := buf']> [[160]]) /\
      Sorted Z.le after /\
      Permutation before after /\
      length buf' = length buf /\
      (forall j, 0 <= j -> ~ 1 <= j < 1 + 4 -> buf_bit buf' j = buf_bit buf j)) /\
  (let* v := Uint1Array_of [Num 1; Num 0; Num 1; Num 0] in
   let* v := Uint1Array_sort v None in
   Uint1Array_iterator v) [] = Normal [Num 0; Num 0; Num 1; Num 1] [[48]].
Proof.
  apply (C9_sort_default [[160]]
           {| bitOffset := 1; bitLength := 4; internal := {| buffer := 0 |} |}).
  exists [160]. simpl. repeat split; lia.
Defined.

(* ===================================================================== *)
(** ** Further properties: accessors and construction *)
(* ===================================================================== *)

Lemma window_bits_length (buf : list Z) (a : Uint1Array) :
  length (window_bits buf a) = Z.to_nat (bitLength a).
Proof. unfold window_bits. rewrite length_fmap, length_seqZ. reflexivity. Qed.

Lemma window_bits_lookup (buf : list Z) (a : Uint1Array) (k : nat) :
  Z.of_nat k < bitLength a ->
  window_bits buf a !! k = Some (buf_bit buf (Z.of_nat k + bitOffset a)).
Proof.
  intros Hk. unfold window_bits.
  rewrite list_lookup_fmap, lookup_seqZ_lt by exact Hk. reflexivity.
Qed.

Lemma window_bits_lookup_Some (buf : list Z) (a : Uint1Array) (k : nat) (b : Z) :
  window_bits buf a !! k = Some b ->
  Z.of_nat k < bitLength a /\ b = buf_bit buf (Z.of_nat k + bitOffset a).
Proof.
  intros Hlk. assert (Hlt : Z.of_nat k < bitLength a).
  { apply lookup_lt_Some in Hlk. rewrite window_bits_length in Hlk. lia. }
  rewrite window_bits_lookup in Hlk by exact Hlt. injection Hlk as <-. auto.
Qed.

Lemma elements_of_lookup (h : list (list Z)) (a : Uint1Array) (buf : list Z) :
  h !! buffer (internal a) = Some buf -> elements_of h a = window_bits buf a.
Proof. intros Hbuf. unfold elements_of. rewrite Hbuf. reflexivity. Qed.

(** Draining the iterator of a valid vector yields its elements. *)
Lemma iterator_elements (h : list (list Z)) (a : Uint1Array) :
  valid h a -> Uint1Array_iterator a h = Normal (Num <$> elements_of h a) h.
Proof.
  intros (buf & Hbuf & Hoff & Hlen & Hwin).
  destruct (Uint1Array_iterator_spec h a buf Hbuf Hoff Hlen Hwin) as (l & Hit & Hl & Hlk).
  rewrite Hit, (elements_of_lookup _ _ _ Hbuf). f_equal.
  apply list_eq. intros k. rewrite list_lookup_fmap.
  destruct (decide (k < length l)%nat) as [Hk | Hk].
  - rewrite Hlk, window_bits_lookup by lia. reflexivity.
  - rewrite (lookup_ge_None_2 l) by lia.
    rewrite (lookup_ge_None_2 (window_bits buf a)); [reflexivity |].
    rewrite window_bits_length. lia.
Qed.

(** What the iterator yields determines the elements. *)
Lemma iterator_elements_inv (h : list (list Z)) (a : Uint1Array) (l : list Z) :
  valid h a ->
  Uint1Array_iterator a h = Normal (Num <$> l) h ->
  l = elements_of h a.
Proof.
  intros Hv Hit. rewrite (iterator_elements h a Hv) in Hit.
  injection Hit as Heq. symmetry.
  revert Heq. generalize (elements_of h a). intros l'. revert l.
  induction l' as [| x l' IH]; intros [| y l] Heq; simpl in Heq; try discriminate.
  - reflexivity.
  - injection Heq as -> Heq. f_equal. apply IH, Heq.
Qed.

(** X1. The bytes [[byteOffset, byteOffset + byteLength)] are the smallest run
    of whole bytes of the buffer that contains the window. *)
Theorem byte_span_covers_window (h : list (list Z)) (a : Uint1Array) :
  valid h a ->
  exists buf : list Z,
    h !! buffer (internal a) = Some buf /\
    0 <= Uint1Array_byteOffset a /\
    0 <= Uint1Array_byteLength a /\
    8 * Uint1Array_byteOffset a <= bitOffset a < 8 * Uint1Array_byteOffset a + 8 /\
    bitOffset a + bitLength a
      <= 8 * (Uint1Array_byteOffset a + Uint1Array_byteLength a)
      < bitOffset a + bitLength a + 8 /\
    Uint1Array_byteOffset a + Uint1Array_byteLength a <= Z.of_nat (length buf).
Proof.
  intros (buf & Hbuf & Hoff & Hlen & Hwin). exists buf.
  pose proof (Uint1Array_byteLength_nonneg a Hoff Hlen) as Hbl.
  unfold Uint1Array_byteOffset, Uint1Array_byteLength in *.
  destruct (ceil_div8_bounds (bitOffset a + bitLength a) ltac:(lia)) as [Hc0 Hc].
  pose proof (Z.div_mod (bitOffset a) 8 ltac:(lia)).
  pose proof (Z.mod_pos_bound (bitOffset a) 8 ltac:(lia)).
  repeat split; try assumption; lia.
Qed.

Lemma byte_span_covers_window_witness :
  exists buf : list Z,
    [[160; 0; 7]] !! 0%nat = Some buf /\
    0 <= 0 /\ 0 <= 2 /\ 8 * 0 <= 5 < 8 * 0 + 8 /\
    5 + 6 <= 8 * (0 + 2) < 5 + 6 + 8 /\
    0 + 2 <= Z.of_nat (length buf).
Proof.
  apply (byte_span_covers_window [[160; 0; 7]]
           {| bitOffset := 5; bitLength := 6; internal := {| buffer := 0 |} |}).
  exists [160; 0; 7]. simpl. repeat split; lia.
Defined.

(** X2. [setUint1] stores the least significant bit of any integer ([n mod 2],
    also for negative [n] and beyond 32 bits) and 0 for [undefined]. *)
Theorem setUint1_stores_low_bit (view : BitDataView) (h : list (list Z)) (buf : list Z)
    (i : Z) (value : JsValue) :
  h !! buffer view = Some buf ->
  0 <= i < 8 * Z.of_nat (length buf) ->
  exists h' : list (list Z),
    setUint1 view i value h = Normal tt h' /\
    getUint1 view i h'
    = Normal (match value with Undefined => 0 | Num n => n mod 2 end) h'.
Proof.
  intros Hbuf Hi. eexists. split; [apply setUint1_spec; eassumption |].
  rewrite (getUint1_spec _ _ (buf_set buf i value)).
  - rewrite buf_bit_set, Z.eqb_refl by lia.
    destruct value as [| n]; [reflexivity | rewrite and1_Num; reflexivity].
  - eapply heap_insert_lookup, Hbuf.
  - rewrite buf_set_length. exact Hi.
Qed.

Lemma setUint1_stores_low_bit_witness :
  exists h' : list (list Z),
    setUint1 {| buffer := 0 |} 3 (Num (-7)) [[160]] = Normal tt h' /\
    getUint1 {| buffer := 0 |} 3 h' = Normal 1 h'.
Proof.
  apply (setUint1_stores_low_bit {| buffer := 0 |} [[160]] [160] 3 (Num (-7))).
  - reflexivity.
  - simpl. lia.
Defined.

(** X3. Outside the buffer, below 0 or from [8 * byteLength] on, both accessors
    throw the [RangeError] of the [DataView] and write nothing. *)
Theorem bit_accessors_out_of_bounds (view : BitDataView) (h : list (list Z))
    (buf : list Z) (i : Z) (value : JsValue) :
  h !! buffer view = Some buf ->
  i < 0 \/ 8 * Z.of_nat (length buf) <= i ->
  getUint1 view i h = Throw RangeError_DataViewBounds h /\
  setUint1 view i value h = Throw RangeError_DataViewBounds h.
Proof.
  intros Hbuf Hi.
  assert (Hget : getUint8 view (i / 8) h = Throw RangeError_DataViewBounds h).
  { unfold getUint8. rewrite Hbuf.
    destruct (Z.leb_spec 0 (i / 8)) as [H0 | H0]; [| reflexivity].
    destruct (Z.ltb_spec (i / 8) (Z.of_nat (length buf))) as [H1 | H1]; [| reflexivity].
    exfalso. destruct Hi as [Hi | Hi].
    - pose proof (Z.div_lt_upper_bound i 8 0 ltac:(lia) ltac:(lia)). lia.
    - pose proof (Z.div_le_lower_bound i 8 (Z.of_nat (length buf)) ltac:(lia) ltac:(lia)).
      lia. }
  split.
  - unfold getUint1, bind. rewrite Hget. reflexivity.
  - unfold setUint1. destruct (truthy (and1 value)); unfold bind; rewrite Hget; reflexivity.
Qed.

Lemma bit_accessors_out_of_bounds_witness :
  getUint1 {| buffer := 0 |} 8 [[160]] = Throw RangeError_DataViewBounds [[160]] /\
  setUint1 {| buffer := 0 |} 8 (Num 1) [[160]] = Throw RangeError_DataViewBounds [[160]].
Proof.
  apply (bit_accessors_out_of_bounds {| buffer := 0 |} [[160]] [160] 8 (Num 1)).
  - reflexivity.
  - right. simpl. lia.
Defined.




(** X5. [new Uint1Array(buffer, offset, length)] on an [ArrayBuffer] of the
    heap, with [offset] defaulting to 0 and [length] to the bits that remain
    after [offset]: when the window fits, the result is a view over that
    very buffer (nothing is allocated or written) whose element [i] is bit
    [7 - (offset + i) mod 8] of byte [floor((offset + i) / 8)]. *)
Theorem new_view_byte_layout (h : list (list Z)) (b : nat) (buf : list Z)
    (offset len : option Z) :
  let off := default 0 offset in
  let n := default (Z.of_nat (length buf) * 8 - off) len in
  h !! b = Some buf ->
  0 <= off -> 0 <= n -> off + n <= 8 * Z.of_nat (length buf) ->
  exists a : Uint1Array,
    Uint1Array_new (SrcArrayBuffer b) offset len h = Normal a h /\
    bitOffset a = off /\ bitLength a = n /\ buffer (internal a) = b /\
    forall i, 0 <= i < n ->
      exists byte : Z,
        buf !! Z.to_nat ((off + i) / 8) = Some byte /\
        proxy_get a (inject_Z i) h
        = Normal (Num (if Z.testbit byte (7 - (off + i) mod 8) then 1 else 0)) h.
Proof.
  intros off n Hbuf Ho Hn Hfit.
  exists {| bitOffset := off; bitLength := n; internal := {| buffer := b |} |}.
  split.
  { unfold Uint1Array_new. simpl. unfold bind, source_byteLength. rewrite Hbuf. simpl.
    fold off. fold n.
    destruct (Z.ltb_spec off 0); [lia |].
    destruct (Z.ltb_spec n 0); [lia |].
    destruct (Z.gtb_spec off (Z.of_nat (length buf) * 8)); [lia |].
    destruct (Z.gtb_spec (n + off) (Z.of_nat (length buf) * 8)); [lia |].
    reflexivity. }
  repeat (split; [reflexivity |]).
  intros i Hi.
  assert (Hr : 0 <= off + i < 8 * Z.of_nat (length buf)) by lia.
  pose proof (byte_index_bounds _ _ Hr) as Hb.
  destruct (lookup_lt_is_Some_2 buf (Z.to_nat ((off + i) / 8))) as [byte Hlk]; [lia |].
  exists byte. split; [exact Hlk |].
  change (proxy_get ?a (inject_Z i)) with (get_element a i).
  rewrite (get_element_in_range h _ buf) by (simpl; trivial; lia).
  simpl. unfold buf_bit. rewrite (Z.add_comm i off), Hlk. reflexivity.
Qed.

Lemma new_view_byte_layout_witness :
  exists a : Uint1Array,
    Uint1Array_new (SrcArrayBuffer 0) (Some 3) None [[160; 9]] = Normal a [[160; 9]] /\
    bitOffset a = 3 /\ bitLength a = 13 /\ buffer (internal a) = 0%nat /\
    forall i, 0 <= i < 13 ->
      exists byte : Z,
        [160; 9] !! Z.to_nat ((3 + i) / 8) = Some byte /\
        proxy_get a (inject_Z i) [[160; 9]]
        = Normal (Num (if Z.testbit byte (7 - (3 + i) mod 8) then 1 else 0)) [[160; 9]].
Proof.
  apply (new_view_byte_layout [[160; 9]] 0 [160; 9] (Some 3) None).
  - reflexivity.
  - simpl. lia.
  - simpl. lia.
  - simpl. lia.
Defined.

(** X6. The same constructor call yields a vector exactly when the window is
    non-negative and fits in the buffer; otherwise it throws a
    [RangeError].  Either way the heap is left as it was. *)
Theorem new_view_validation (h : list (list Z)) (b : nat) (buf : list Z)
    (offset len : option Z) :
  let off := default 0 offset in
  let n := default (Z.of_nat (length buf) * 8 - off) len in
  h !! b = Some buf ->
  ((exists a, Uint1Array_new (SrcArrayBuffer b) offset len h = Normal a h)
   <-> (0 <= off /\ 0 <= n /\ off + n <= 8 * Z.of_nat (length buf))) /\
  ((exists e, Uint1Array_new (SrcArrayBuffer b) offset len h = Throw e h /\
              is_RangeError e = true)
   <-> ~ (0 <= off /\ 0 <= n /\ off + n <= 8 * Z.of_nat (length buf))) /\
  heap_of (Uint1Array_new (SrcArrayBuffer b) offset len h) = h.
Proof.
  intros off n Hbuf.
  assert (Hcases :
    (0 <= off /\ 0 <= n /\ off + n <= 8 * Z.of_nat (length buf) /\
     exists a, Uint1Array_new (SrcArrayBuffer b) offset len h = Normal a h) \/
    (~ (0 <= off /\ 0 <= n /\ off + n <= 8 * Z.of_nat (length buf)) /\
     exists e, Uint1Array_new (SrcArrayBuffer b) offset len h = Throw e h /\
               is_RangeError e = true)).
  { unfold Uint1Array_new. simpl. unfold bind, source_byteLength. rewrite Hbuf. simpl.
    fold off. fold n.
    destruct (Z.ltb_spec off 0); [right; split; [lia | eexists; split; reflexivity] |].
    destruct (Z.ltb_spec n 0); [right; split; [lia | eexists; split; reflexivity] |].
    destruct (Z.gtb_spec off (Z.of_nat (length buf) * 8));
      [right; split; [lia | eexists; split; reflexivity] |].
    destruct (Z.gtb_spec (n + off) (Z.of_nat (length buf) * 8));
      [right; split; [lia | eexists; split; reflexivity] |].
    left. repeat split; try lia. eexists. reflexivity. }
  destruct Hcases as [(H1 & H2 & H3 & a & Ha) | (Hno & e & He & Hr)].
  - split; [| split].
    + split; [intros _; auto | intros _; exists a; exact Ha].
    + split; [intros (e & He & _); congruence | intros Hno; exfalso; apply Hno; auto].
    + rewrite Ha. reflexivity.
  - split; [| split].
    + split; [intros (a & Ha); congruence | intros Hyes; contradiction].
    + split; [intros _; exact Hno | intros _; exists e; auto].
    + rewrite He. reflexivity.
Qed.

Lemma new_view_validation_witness :
  ((exists a, Uint1Array_new (SrcArrayBuffer 0) (Some 17) None [[160; 9]]
              = Normal a [[160; 9]])
   <-> (0 <= 17 /\ 0 <= 16 - 17 /\ 17 + (16 - 17) <= 16)) /\
  ((exists e, Uint1Array_new (SrcArrayBuffer 0) (Some 17) None [[160; 9]]
              = Throw e [[160; 9]] /\ is_RangeError e = true)
   <-> ~ (0 <= 17 /\ 0 <= 16 - 17 /\ 17 + (16 - 17) <= 16)) /\
  heap_of (Uint1Array_new (SrcArrayBuffer 0) (Some 17) None [[160; 9]]) = [[160; 9]].
Proof.
  apply (new_view_validation [[160; 9]] 0 [160; 9] (Some 17) None).
  reflexivity.
Defined.

(** X7. Constructing from a plain array of values, or from an iterable drained
    into one, that has no [byteLength] property keeps the low bit of each
    element ([n mod 2] for an integer, 0 for [undefined]): these are the
    elements read back, in order, from a fresh buffer appended to the
    heap.  (A source with a [byteLength], such as a typed array or a
    [Uint1Array], takes the buffer branch instead.) *)
Theorem new_items_low_bits (h : list (list Z)) (source : Source) (items : list JsValue) :
  source = SrcArrayLike items \/ source = SrcIterable items ->
  exists (a : Uint1Array) (buf' : list Z),
    has_byteLength source = false /\
    Uint1Array_new source None None h = Normal a (h ++ [buf']) /\
    bitLength a = Z.of_nat (length items) /\
    Uint1Array_iterator a (h ++ [buf'])
    = Normal ((fun v => Num (match v with Undefined => 0 | Num n => n mod 2 end)) <$> items)
        (h ++ [buf']).
Proof.
  intros Hsrc.
  destruct (Uint1Array_new_items source items None None h Hsrc) as (buf' & Hnew & Hlen & Hbits).
  eexists _, buf'. split; [destruct Hsrc as [-> | ->]; reflexivity |].
  split; [exact Hnew |]. split; [reflexivity |].
  assert (Hv : valid (h ++ [buf'])
                 {| bitOffset := 0; bitLength := Z.of_nat (length items);
                    internal := {| buffer := length h |} |}).
  { eapply Uint1Array_new_valid; [| exact Hnew]. destruct Hsrc as [-> | ->]; intros b [=]. }
  rewrite (iterator_elements _ _ Hv). f_equal.
  rewrite (elements_of_lookup _ _ buf') by apply heap_alloc_lookup.
  apply list_eq. intros k. rewrite !list_lookup_fmap.
  destruct (items !! k) as [v |] eqn:Hk.
  - assert (Z.of_nat k < Z.of_nat (length items)) by (apply lookup_lt_Some in Hk; lia).
    rewrite window_bits_lookup by (simpl; lia). simpl.
    rewrite Z.add_0_r, Hbits, (array_get_lookup _ _ _ Hk) by lia.
    destruct v as [| n]; [reflexivity | rewrite and1_Num; reflexivity].
  - apply lookup_ge_None in Hk. simpl.
    rewrite lookup_ge_None_2; [reflexivity |]. rewrite window_bits_length. simpl. lia.
Qed.

Lemma new_items_low_bits_witness :
  exists (a : Uint1Array) (buf' : list Z),
    has_byteLength (SrcArrayLike [Num 2; Num (-3); Undefined; Num 5]) = false /\
    Uint1Array_new (SrcArrayLike [Num 2; Num (-3); Undefined; Num 5]) None None []
    = Normal a ([] ++ [buf']) /\
    bitLength a = 4 /\
    Uint1Array_iterator a ([] ++ [buf'])
    = Normal [Num 0; Num 1; Num 0; Num 1] ([] ++ [buf']).
Proof.
  apply (new_items_low_bits [] (SrcArrayLike [Num 2; Num (-3); Undefined; Num 5])
           [Num 2; Num (-3); Undefined; Num 5]).
  left. reflexivity.
Defined.

(** X8. The constructor never writes to a buffer that exists already, whatever
    its argument and however it ends; so every vector valid before the call
    is valid after it. *)
Theorem new_keeps_existing_buffers (h : list (list Z)) (source : Source)
    (offset len : option Z) :
  (forall (id : nat) (buf : list Z),
      h !! id = Some buf ->
      heap_of (Uint1Array_new source offset len h) !! id = Some buf) /\
  (forall v : Uint1Array, valid h v -> valid (heap_of (Uint1Array_new source offset len h)) v).
Proof.
  assert (Hshape : heap_of (Uint1Array_new source offset len h) = h \/
                   exists buf', heap_of (Uint1Array_new source offset len h) = h ++ [buf']).
  { destruct source as [| n | b | a0 | items | items].
    - right. eexists. reflexivity.
    - unfold Uint1Array_new. simpl. destruct (n <? 0); [left | right; eexists]; reflexivity.
    - left. unfold Uint1Array_new. simpl. unfold bind, source_byteLength, throw, ret. simpl.
      repeat match goal with
             | |- context [if ?c then _ else _] => destruct c
             end; reflexivity.
    - left. destruct (Uint1Array_new_vector_throws h a0) as [e He].
      unfold Uint1Array_new in *. simpl in *. unfold bind, source_byteLength, throw in *.
      repeat match goal with
             | |- context [if ?c then _ else _] => destruct c
             end; reflexivity.
    - right.
      destruct (Uint1Array_new_items (SrcArrayLike items) items offset len h)
        as (buf' & Hnew & _); [left; reflexivity |].
      exists buf'. rewrite Hnew. reflexivity.
    - right.
      destruct (Uint1Array_new_items (SrcIterable items) items offset len h)
        as (buf' & Hnew & _); [right; reflexivity |].
      exists buf'. rewrite Hnew. reflexivity. }
  assert (Hkeep : forall (id : nat) (buf : list Z),
             h !! id = Some buf ->
             heap_of (Uint1Array_new source offset len h) !! id = Some buf).
  { intros id buf Hlk. destruct Hshape as [-> | [buf' ->]]; [exact Hlk |].
    rewrite lookup_app_l by (eapply lookup_lt_Some, Hlk). exact Hlk. }
  split; [exact Hkeep |].
  intros v (buf & Hbuf & Hrest). exists buf. split; [apply Hkeep, Hbuf | exact Hrest].
Qed.

Lemma new_keeps_existing_buffers_witness :
  valid (heap_of (Uint1Array_new (SrcArrayLike [Num 1; Num 1]) None None [[160]]))
    {| bitOffset := 0; bitLength := 3; internal := {| buffer := 0 |} |}.
Proof.
  apply (proj2 (new_keeps_existing_buffers [[160]] (SrcArrayLike [Num 1; Num 1]) None None)).
  exists [160]. simpl. repeat split; lia.
Defined.

(* ===================================================================== *)
(** ** Further properties: views *)
(* ===================================================================== *)

Ltac no_test t :=
  lazymatch t with
  | context [if _ then _ else _] => fail
  | _ => idtac
  end.

Ltac case_compare :=
  repeat match goal with
         | |- context [?a <? ?b] => no_test a; no_test b; destruct (Z.ltb_spec a b)
         | |- context [?a >? ?b] => no_test a; no_test b; destruct (Z.gtb_spec a b)
         end.

(** X9. A negative [begin] counts from the end and stops at 0; a negative [end]
    counts from the end as long as it stays inside the vector. *)
Theorem subarray_negative_index (h : list (list Z)) (this : Uint1Array) (k : Z)
    (begin end_ : option Z) :
  (0 < k ->
   Uint1Array_subarray this (Some (- k)) end_ h
   = Uint1Array_subarray this (Some (Z.max 0 (bitLength this - k))) end_ h) /\
  (0 < k <= bitLength this ->
   Uint1Array_subarray this begin (Some (- k)) h
   = Uint1Array_subarray this begin (Some (bitLength this - k)) h).
Proof.
  split; intros Hk; unfold Uint1Array_subarray; simpl.
  - assert (Hb : (if (if - k <? 0 then bitLength this + - k else - k) <? 0 then 0
                  else if - k <? 0 then bitLength this + - k else - k)
                 = (if (if Z.max 0 (bitLength this - k) <? 0
                        then bitLength this + Z.max 0 (bitLength this - k)
                        else Z.max 0 (bitLength this - k)) <? 0 then 0
                    else if Z.max 0 (bitLength this - k) <? 0
                         then bitLength this + Z.max 0 (bitLength this - k)
                         else Z.max 0 (bitLength this - k))).
    { case_compare; lia. }
    rewrite Hb. reflexivity.
  - assert (He : (if - k <? 0 then bitLength this + - k else - k)
                 = (if bitLength this - k <? 0 then bitLength this + (bitLength this - k)
                    else bitLength this - k)).
    { case_compare; lia. }
    rewrite He. reflexivity.
Qed.

Lemma subarray_negative_index_witness :
  Uint1Array_subarray {| bitOffset := 0; bitLength := 5; internal := {| buffer := 0 |} |}
    (Some (- 7)) None [[160]]
  = Uint1Array_subarray {| bitOffset := 0; bitLength := 5; internal := {| buffer := 0 |} |}
      (Some (Z.max 0 (5 - 7))) None [[160]].
Proof.
  apply (proj1 (subarray_negative_index [[160]]
                  {| bitOffset := 0; bitLength := 5; internal := {| buffer := 0 |} |}
                  7 None None)).
  lia.
Defined.

(** X10. On a valid vector, [subarray] with a [begin] that does not exceed the
    length returns, without touching the heap, a valid vector over the same
    buffer whose window lies inside the parent's window; its elements are
    the corresponding run of the parent's elements. *)
Theorem subarray_window (h : list (list Z)) (a : Uint1Array) (begin end_ : option Z) :
  valid h a ->
  default 0 begin <= bitLength a ->
  exists (b : Uint1Array) (before : list Z),
    Uint1Array_subarray a begin end_ h = Normal b h /\
    valid h b /\
    buffer (internal b) = buffer (internal a) /\
    bitOffset a <= bitOffset b /\
    bitOffset b + bitLength b <= bitOffset a + bitLength a /\
    Uint1Array_iterator a h = Normal (Num <$> before) h /\
    Uint1Array_iterator b h
    = Normal (Num <$> take (Z.to_nat (bitLength b))
                        (drop (Z.to_nat (bitOffset b - bitOffset a)) before)) h.
Proof.
  intros Hv Hbegin. pose proof Hv as (buf & Hbuf & Hoff & Hlen & Hwin).
  assert (Hn : exists x l, 0 <= x /\ 0 <= l /\ x + l <= bitLength a /\
                 Uint1Array_subarray a begin end_ h
                 = Uint1Array_new (SrcArrayBuffer (buffer (internal a)))
                     (Some (bitOffset a + x)) (Some l) h).
  { unfold Uint1Array_subarray.
    match goal with
    | |- context [Uint1Array_new _ (Some (_ + ?x)) (Some ?l)] => exists x, l
    end.
    split; [| split; [| split; [| reflexivity]]];
      destruct begin as [b0 |], end_ as [e0 |]; simpl in *; case_compare; lia. }
  destruct Hn as (x & l & Hx & Hl & Hxl & Hsub).
  set (b := {| bitOffset := bitOffset a + x; bitLength := l;
               internal := {| buffer := buffer (internal a) |} |}).
  assert (Hvb : valid h b) by (exists buf; simpl; repeat split; trivial; lia).
  exists b, (elements_of h a).
  split; [rewrite Hsub; apply (Uint1Array_new_view h _ buf); trivial; lia |].
  split; [exact Hvb |]. split; [reflexivity |]. simpl.
  split; [lia |]. split; [lia |].
  split; [apply iterator_elements, Hv |].
  rewrite (iterator_elements _ _ Hvb). do 2 f_equal.
  rewrite (elements_of_lookup h b buf), (elements_of_lookup h a buf) by assumption.
  apply list_eq. intros k.
  destruct (decide (Z.of_nat k < l)) as [Hk | Hk].
  - rewrite window_bits_lookup by (simpl; lia).
    rewrite lookup_take_lt, lookup_drop by lia.
    rewrite window_bits_lookup by lia. simpl. do 2 f_equal. lia.
  - rewrite lookup_ge_None_2 by (rewrite window_bits_length; simpl; lia).
    rewrite lookup_take_ge by lia. reflexivity.
Qed.

Lemma subarray_window_witness :
  exists (b : Uint1Array) (before : list Z),
    Uint1Array_subarray {| bitOffset := 1; bitLength := 6; internal := {| buffer := 0 |} |}
      (Some (- 4)) (Some 5) [[172]] = Normal b [[172]] /\
    valid [[172]] b /\
    buffer (internal b) = 0%nat /\
    1 <= bitOffset b /\
    bitOffset b + bitLength b <= 1 + 6 /\
    Uint1Array_iterator {| bitOffset := 1; bitLength := 6; internal := {| buffer := 0 |} |}
      [[172]] = Normal (Num <$> before) [[172]] /\
    Uint1Array_iterator b [[172]]
    = Normal (Num <$> take (Z.to_nat (bitLength b))
                        (drop (Z.to_nat (bitOffset b - 1)) before)) [[172]].
Proof.
  apply (subarray_window [[172]]
           {| bitOffset := 1; bitLength := 6; internal := {| buffer := 0 |} |}
           (Some (- 4)) (Some 5)).
  - exists [172]. simpl. repeat split; lia.
  - simpl. lia.
Defined.

(** X11. A write through one valid vector is seen through another exactly at
    the elements that are the same bit of the same buffer; every other
    element of every vector reads as before, and every vector stays
    valid. *)
Theorem element_write_frame (h : list (list Z)) (a c : Uint1Array) (i j : Z)
    (value : JsValue) :
  valid h a -> valid h c ->
  0 <= i < bitLength a -> 0 <= j < bitLength c ->
  exists h' : list (list Z),
    proxy_set a (inject_Z i) value h = Normal true h' /\
    valid h' c /\
    (buffer (internal c) = buffer (internal a) /\ bitOffset c + j = bitOffset a + i ->
     proxy_get c (inject_Z j) h'
     = Normal (Num (match value with Undefined => 0 | Num n => n mod 2 end)) h') /\
    (~ (buffer (internal c) = buffer (internal a) /\ bitOffset c + j = bitOffset a + i) ->
     exists x, proxy_get c (inject_Z j) h = Normal x h /\
               proxy_get c (inject_Z j) h' = Normal x h').
Proof.
  intros (buf & Hbuf & Hoff & Hlen & Hwin) (bufc & Hbufc & Hoffc & Hlenc & Hwinc) Hi Hj.
  set (buf' := buf_set buf (i + bitOffset a) value).
  exists (<[buffer (internal a) := buf']> h).
  split; [apply (proxy_set_in_range h a buf); trivial |].
  assert (Hlow : and1 value = match value with Undefined => 0 | Num n => n mod 2 end)
    by (destruct value; [reflexivity | apply and1_Num]).
  change (proxy_get c (inject_Z j)) with (get_element c j).
  destruct (decide (buffer (internal c) = buffer (internal a))) as [Heq | Hne].
  - assert (bufc = buf) as -> by congruence.
    assert (Hbufc' : <[buffer (internal a) := buf']> h !! buffer (internal c) = Some buf').
    { rewrite Heq. eapply heap_insert_lookup, Hbuf. }
    assert (Hlen' : length buf' = length buf) by apply buf_set_length.
    split; [exists buf'; rewrite Hlen'; auto |].
    rewrite (get_element_in_range _ c buf') by (trivial; rewrite ?Hlen'; lia).
    unfold buf'. rewrite buf_bit_set by lia.
    split.
    + intros [_ Hsame]. destruct (Z.eqb_spec (j + bitOffset c) (i + bitOffset a)); [| lia].
      rewrite Hlow. reflexivity.
    + intros Hdiff. destruct (Z.eqb_spec (j + bitOffset c) (i + bitOffset a)).
      { exfalso. apply Hdiff. split; [exact Heq | lia]. }
      eexists. split; [apply (get_element_in_range h c buf); trivial | reflexivity].
  - assert (Hbufc' : <[buffer (internal a) := buf']> h !! buffer (internal c) = Some bufc).
    { rewrite list_lookup_insert_ne by auto. exact Hbufc. }
    split; [exists bufc; auto |].
    split; [intros [Heq _]; contradiction |].
    intros _. eexists. split.
    + apply (get_element_in_range h c bufc); trivial.
    + apply (get_element_in_range _ c bufc); trivial.
Qed.

Lemma element_write_frame_witness :
  exists h' : list (list Z),
    proxy_set {| bitOffset := 0; bitLength := 8; internal := {| buffer := 0 |} |}
      (inject_Z 5) (Num 1) [[160]] = Normal true h' /\
    valid h' {| bitOffset := 3; bitLength := 4; internal := {| buffer := 0 |} |} /\
    (0%nat = 0%nat /\ 3 + 2 = 0 + 5 ->
     proxy_get {| bitOffset := 3; bitLength := 4; internal := {| buffer := 0 |} |}
       (inject_Z 2) h' = Normal (Num 1) h') /\
    (~ (0%nat = 0%nat /\ 3 + 2 = 0 + 5) ->
     exists x,
       proxy_get {| bitOffset := 3; bitLength := 4; internal := {| buffer := 0 |} |}
         (inject_Z 2) [[160]] = Normal x [[160]] /\
       proxy_get {| bitOffset := 3; bitLength := 4; internal := {| buffer := 0 |} |}
         (inject_Z 2) h' = Normal x h').
Proof.
  apply (element_write_frame [[160]]
           {| bitOffset := 0; bitLength := 8; internal := {| buffer := 0 |} |}
           {| bitOffset := 3; bitLength := 4; internal := {| buffer := 0 |} |}
           5 2 (Num 1)).
  - exists [160]. simpl. repeat split; lia.
  - exists [160]. simpl. repeat split; lia.
  - simpl. lia.
  - simpl. lia.
Defined.

(* ===================================================================== *)
(** ** Further properties: writing ranges of elements *)
(* ===================================================================== *)

Lemma elements_of_bits (h : list (list Z)) (a : Uint1Array) :
  Forall (fun b => b = 0 \/ b = 1) (elements_of h a).
Proof.
  apply Forall_lookup. intros k b Hlk. unfold elements_of in Hlk.
  apply window_bits_lookup_Some in Hlk as [_ ->]. apply buf_bit_01.
Qed.

Lemma and1_Num_bits (l : list Z) :
  Forall (fun b => b = 0 \/ b = 1) l -> and1 <$> (Num <$> l) = l.
Proof.
  induction 1 as [| b l Hb _ IH]; [reflexivity |].
  rewrite !fmap_cons, IH, and1_of_bit by exact Hb. reflexivity.
Qed.

(** The contents of a window one run of which was overwritten. *)
Lemma window_bits_splice (buf buf' : list Z) (a : Uint1Array) (off : Z) (mid : list Z) :
  0 <= bitOffset a ->
  0 <= off -> off + Z.of_nat (length mid) <= bitLength a ->
  (forall k : nat, (k < length mid)%nat ->
     mid !! k = Some (buf_bit buf' (off + Z.of_nat k + bitOffset a))) ->
  (forall j, 0 <= j ->
     ~ off + bitOffset a <= j < off + bitOffset a + Z.of_nat (length mid) ->
     buf_bit buf' j = buf_bit buf j) ->
  window_bits buf' a
  = take (Z.to_nat off) (window_bits buf a) ++ mid
    ++ drop (Z.to_nat off + length mid) (window_bits buf a).
Proof.
  intros Hbo Hoff Hfit Hmid Hout. apply list_eq. intros k.
  destruct (decide (Z.of_nat k < bitLength a)) as [Hk | Hk].
  - rewrite window_bits_lookup by exact Hk.
    destruct (decide (Z.of_nat k < off)) as [Hlo | Hlo].
    + rewrite lookup_app_l by (rewrite length_take, window_bits_length; lia).
      rewrite lookup_take_lt, window_bits_lookup by lia.
      rewrite Hout by lia. reflexivity.
    + rewrite lookup_app_r by (rewrite length_take, window_bits_length; lia).
      rewrite length_take, window_bits_length.
      destruct (decide (Z.of_nat k < off + Z.of_nat (length mid))) as [Hin | Hin].
      * rewrite lookup_app_l by lia. rewrite Hmid by lia. do 2 f_equal. lia.
      * rewrite lookup_app_r by lia. rewrite lookup_drop.
        rewrite window_bits_lookup by lia. rewrite Hout by lia. do 2 f_equal. lia.
  - rewrite lookup_ge_None_2 by (rewrite window_bits_length; lia).
    symmetry. apply lookup_ge_None_2.
    rewrite !length_app, length_take, length_drop, window_bits_length. lia.
Qed.

(** What [set] does to the elements, and what it leaves alone. *)
Lemma Uint1Array_set_elements (h : list (list Z)) (a : Uint1Array)
    (array : list JsValue) (offset : option Z) :
  valid h a ->
  0 <= default 0 offset ->
  default 0 offset + Z.of_nat (length array) <= bitLength a ->
  exists (h' : list (list Z)) (buf buf' : list Z),
    Uint1Array_set a array offset h = Normal tt h' /\
    h !! buffer (internal a) = Some buf /\
    h' = <[buffer (internal a) := buf']> h /\
    length buf' = length buf /\
    elements_of h' a
    = take (Z.to_nat (default 0 offset)) (elements_of h a) ++ (and1 <$> array)
      ++ drop (Z.to_nat (default 0 offset) + length array) (elements_of h a) /\
    (forall j, 0 <= j ->
       ~ default 0 offset + bitOffset a <= j
         < default 0 offset + bitOffset a + Z.of_nat (length array) ->
       buf_bit buf' j = buf_bit buf j).
Proof.
  intros (buf & Hbuf & Hoff & Hlen & Hwin) Ho Hfit.
  destruct (Uint1Array_set_in_range h a buf array offset Hbuf Hoff Hwin Ho Hfit)
    as (buf' & Hset & Hlen' & Hbits).
  set (off := default 0 offset) in *.
  assert (Hin : forall j, off + bitOffset a <= j < off + bitOffset a + Z.of_nat (length array) ->
                  buf_bit buf' j = and1 (array_get array (j - (off + bitOffset a)))).
  { intros j Hj. rewrite Hbits by lia.
    destruct (Z.leb_spec (off + bitOffset a) j); [| lia].
    destruct (Z.ltb_spec j (off + bitOffset a + Z.of_nat (length array))); [| lia].
    reflexivity. }
  assert (Hout : forall j, 0 <= j ->
                   ~ off + bitOffset a <= j < off + bitOffset a + Z.of_nat (length array) ->
                   buf_bit buf' j = buf_bit buf j).
  { intros j Hj Hno. rewrite Hbits by lia.
    destruct (Z.leb_spec (off + bitOffset a) j),
             (Z.ltb_spec j (off + bitOffset a + Z.of_nat (length array)));
      simpl; trivial; lia. }
  exists (<[buffer (internal a) := buf']> h), buf, buf'.
  split; [exact Hset |]. split; [exact Hbuf |]. split; [reflexivity |].
  split; [exact Hlen' |]. split; [| exact Hout].
  rewrite (elements_of_lookup _ a buf') by (eapply heap_insert_lookup, Hbuf).
  rewrite (elements_of_lookup h a buf) by exact Hbuf.
  rewrite <- (length_fmap and1 array).
  apply window_bits_splice.
  - exact Hoff.
  - exact Ho.
  - rewrite length_fmap. exact Hfit.
  - intros k Hk. rewrite length_fmap in Hk.
    rewrite Hin by lia. rewrite list_lookup_fmap.
    destruct (lookup_lt_is_Some_2 array k Hk) as [v Hv]. rewrite Hv. simpl.
    replace (off + Z.of_nat k + bitOffset a - (off + bitOffset a)) with (Z.of_nat k) by lia.
    rewrite (array_get_lookup _ _ _ Hv). reflexivity.
  - intros j Hj Hno. rewrite length_fmap in Hno. apply Hout; assumption.
Qed.

Lemma valid_insert (h : list (list Z)) (id : nat) (buf buf' : list Z) (v : Uint1Array) :
  h !! id = Some buf -> length buf' = length buf ->
  valid h v -> valid (<[id := buf']> h) v.
Proof.
  intros Hbuf Hlen (bufv & Hbufv & Hrest).
  destruct (decide (buffer (internal v) = id)) as [Heq | Hne].
  - subst id. exists buf'. split; [eapply heap_insert_lookup, Hbuf |].
    assert (bufv = buf) as -> by congruence. rewrite Hlen. exact Hrest.
  - exists bufv. split; [| exact Hrest]. rewrite list_lookup_insert_ne by auto. exact Hbufv.
Qed.

(** X12. [set(array, offset)] for a plain array of values (an array whose
    elements the writes cannot change; a view over the vector's own buffer
    is read while it is written and is not covered), inside the window of
    a valid vector: the elements [offset, offset + array.length) become
    the low bits of the array's elements ([and1]), the elements before and
    after are kept, no other buffer is written and every vector stays
    valid. *)
Theorem set_copies_elements (h : list (list Z)) (a : Uint1Array)
    (array : list JsValue) (offset : option Z) :
  valid h a ->
  0 <= default 0 offset ->
  default 0 offset + Z.of_nat (length array) <= bitLength a ->
  exists (before : list Z) (h' : list (list Z)),
    Uint1Array_iterator a h = Normal (Num <$> before) h /\
    Uint1Array_set a array offset h = Normal tt h' /\
    Uint1Array_iterator a h'
    = Normal (Num <$> (take (Z.to_nat (default 0 offset)) before ++ (and1 <$> array)
                       ++ drop (Z.to_nat (default 0 offset) + length array) before)) h' /\
    (forall id : nat, id <> buffer (internal a) -> h' !! id = h !! id) /\
    (forall v : Uint1Array, valid h v -> valid h' v).
Proof.
  intros Hv Ho Hfit.
  destruct (Uint1Array_set_elements h a array offset Hv Ho Hfit)
    as (h' & buf & buf' & Hset & Hbuf & -> & Hlen & Hel & _).
  exists (elements_of h a), (<[buffer (internal a) := buf']> h).
  split; [apply iterator_elements, Hv |]. split; [exact Hset |].
  split; [| split].
  - rewrite iterator_elements by (eapply valid_insert; eassumption).
    rewrite Hel. reflexivity.
  - intros id Hne. apply list_lookup_insert_ne. auto.
  - intros v. eapply valid_insert; eassumption.
Qed.

Lemma set_copies_elements_witness :
  exists (before : list Z) (h' : list (list Z)),
    Uint1Array_iterator {| bitOffset := 1; bitLength := 6; internal := {| buffer := 0 |} |}
      [[172]] = Normal (Num <$> before) [[172]] /\
    Uint1Array_set {| bitOffset := 1; bitLength := 6; internal := {| buffer := 0 |} |}
      [Num 3; Num 4] (Some 2) [[172]] = Normal tt h' /\
    Uint1Array_iterator {| bitOffset := 1; bitLength := 6; internal := {| buffer := 0 |} |} h'
    = Normal (Num <$> (take 2 before ++ [1; 0] ++ drop 4 before)) h' /\
    (forall id : nat, id <> 0%nat -> h' !! id = [[172]] !! id) /\
    (forall v : Uint1Array, valid [[172]] v -> valid h' v).
Proof.
  apply (set_copies_elements [[172]]
           {| bitOffset := 1; bitLength := 6; internal := {| buffer := 0 |} |}
           [Num 3; Num 4] (Some 2)).
  - exists [172]. simpl. repeat split; lia.
  - simpl. lia.
  - simpl. lia.
Defined.

(** X13. [fill(value, start, end)] with [0 <= start <= end <= length] (the
    defaults are 0 and the length) sets the elements [start, end) to the
    low bit of [value], keeps the others, returns the vector itself and
    keeps every vector valid. *)
Theorem fill_sets_range (h : list (list Z)) (a : Uint1Array) (value : JsValue)
    (start end_ : option Z) :
  let x := default 0 start in
  let y := default (bitLength a) end_ in
  valid h a ->
  0 <= x <= y -> y <= bitLength a ->
  exists (before : list Z) (h' : list (list Z)),
    Uint1Array_iterator a h = Normal (Num <$> before) h /\
    Uint1Array_fill a value start end_ h = Normal a h' /\
    Uint1Array_iterator a h'
    = Normal (Num <$> (take (Z.to_nat x) before ++ replicate (Z.to_nat (y - x)) (and1 value)
                       ++ drop (Z.to_nat y) before)) h' /\
    (forall v : Uint1Array, valid h v -> valid h' v).
Proof.
  intros x y Hv Hxy Hy. pose proof Hv as (buf & Hbuf & Hoff & Hlen & Hwin).
  set (sub := {| bitOffset := bitOffset a + x; bitLength := y - x;
                 internal := {| buffer := buffer (internal a) |} |}).
  assert (Hsub : Uint1Array_subarray a start end_ h = Normal sub h).
  { change (Uint1Array_subarray a start end_)
      with (Uint1Array_subarray a (Some x) (Some y)).
    apply (Uint1Array_subarray_in_range h a buf); trivial. }
  destruct (for_loop_writes (buffer (internal a)) (bitOffset a + x) 0 (y - x)
              (length buf) (fun _ => value) (fun i => put_element sub i value))
    with (n := Z.to_nat (y - x)) (s := 0) (h := h) (buf := buf)
    as (buf' & Hrun & Hlen' & Hbits); try lia; trivial.
  { intros i h0 buf0 Hi Hbuf0 Hlen0.
    rewrite (put_element_in_range h0 sub buf0) by (simpl; trivial; lia). reflexivity. }
  exists (elements_of h a), (<[buffer (internal a) := buf']> h).
  split; [apply iterator_elements, Hv |].
  split; [unfold Uint1Array_fill, bind; rewrite Hsub; simpl; rewrite Hrun; reflexivity |].
  split; [| intros v; eapply valid_insert; eassumption].
  rewrite iterator_elements by (eapply valid_insert; eassumption).
  do 2 f_equal.
  rewrite (elements_of_lookup _ a buf') by (eapply heap_insert_lookup, Hbuf).
  rewrite (elements_of_lookup h a buf) by exact Hbuf.
  replace (Z.to_nat y)
    with (Z.to_nat x + length (replicate (Z.to_nat (y - x)) (and1 value)))%nat
    by (rewrite length_replicate; lia).
  apply window_bits_splice; rewrite ?length_replicate; try lia.
  - intros k Hk. rewrite lookup_replicate_2 by exact Hk. rewrite Hbits by lia.
    destruct (Z.leb_spec (0 + (bitOffset a + x)) (x + Z.of_nat k + bitOffset a)); [| lia].
    destruct (Z.ltb_spec (x + Z.of_nat k + bitOffset a)
                (0 + (bitOffset a + x) + Z.of_nat (Z.to_nat (y - x)))); [| lia].
    reflexivity.
  - intros j Hj Hno. rewrite Hbits by exact Hj.
    destruct (Z.leb_spec (0 + (bitOffset a + x)) j),
             (Z.ltb_spec j (0 + (bitOffset a + x) + Z.of_nat (Z.to_nat (y - x))));
      simpl; trivial; lia.
Qed.

Lemma fill_sets_range_witness :
  exists (before : list Z) (h' : list (list Z)),
    Uint1Array_iterator {| bitOffset := 1; bitLength := 6; internal := {| buffer := 0 |} |}
      [[172]] = Normal (Num <$> before) [[172]] /\
    Uint1Array_fill {| bitOffset := 1; bitLength := 6; internal := {| buffer := 0 |} |}
      (Num 1) (Some 2) None [[172]]
    = Normal {| bitOffset := 1; bitLength := 6; internal := {| buffer := 0 |} |} h' /\
    Uint1Array_iterator {| bitOffset := 1; bitLength := 6; internal := {| buffer := 0 |} |} h'
    = Normal (Num <$> (take 2 before ++ replicate 4 1 ++ drop 6 before)) h' /\
    (forall v : Uint1Array, valid [[172]] v -> valid h' v).
Proof.
  apply (fill_sets_range [[172]]
           {| bitOffset := 1; bitLength := 6; internal := {| buffer := 0 |} |}
           (Num 1) (Some 2) None).
  - exists [172]. simpl. repeat split; lia.
  - simpl. lia.
  - simpl. lia.
Defined.

Lemma Uint1Array_reverse_elements (h : list (list Z)) (a : Uint1Array) :
  valid h a ->
  exists h' : list (list Z),
    Uint1Array_reverse a h = Normal a h' /\
    valid h' a /\
    elements_of h' a = reverse (elements_of h a).
Proof.
  intros Hv. pose proof Hv as (buf & Hbuf & Hoff & Hlen & Hwin).
  assert (Hn : length (elements_of h a) = Z.to_nat (bitLength a)).
  { rewrite (elements_of_lookup _ _ _ Hbuf). apply window_bits_length. }
  destruct (Uint1Array_set_elements h a (Num <$> reverse (elements_of h a)) None Hv)
    as (h' & buf0 & buf' & Hset & Hbuf0 & -> & Hlen' & Hel & _).
  { simpl. lia. }
  { simpl. rewrite length_fmap, length_reverse, Hn. lia. }
  exists (<[buffer (internal a) := buf']> h).
  split; [| split].
  - unfold Uint1Array_reverse, bind. rewrite (iterator_elements _ _ Hv).
    rewrite <- fmap_reverse, Hset. reflexivity.
  - eapply valid_insert; eassumption.
  - rewrite Hel. simpl.
    rewrite and1_Num_bits
      by (eapply Forall_reverse, elements_of_bits).
    rewrite length_fmap, length_reverse.
    rewrite drop_all. apply app_nil_r.
Qed.

(** X14. [reverse()] on a valid vector returns the vector itself with its
    elements in the opposite order; doing it twice restores them. *)
Theorem reverse_reverses (h : list (list Z)) (a : Uint1Array) :
  valid h a ->
  exists (before : list Z) (h' h'' : list (list Z)),
    Uint1Array_iterator a h = Normal (Num <$> before) h /\
    Uint1Array_reverse a h = Normal a h' /\
    Uint1Array_iterator a h' = Normal (Num <$> reverse before) h' /\
    Uint1Array_reverse a h' = Normal a h'' /\
    Uint1Array_iterator a h'' = Normal (Num <$> before) h''.
Proof.
  intros Hv.
  destruct (Uint1Array_reverse_elements h a Hv) as (h' & Hr & Hv' & He).
  destruct (Uint1Array_reverse_elements h' a Hv') as (h'' & Hr' & Hv'' & He').
  exists (elements_of h a), h', h''.
  split; [apply iterator_elements, Hv |]. split; [exact Hr |].
  split; [rewrite (iterator_elements _ _ Hv'), He; reflexivity |].
  split; [exact Hr' |].
  rewrite (iterator_elements _ _ Hv''), He', He, reverse_involutive. reflexivity.
Qed.

Lemma reverse_reverses_witness :
  exists (before : list Z) (h' h'' : list (list Z)),
    Uint1Array_iterator {| bitOffset := 1; bitLength := 5; internal := {| buffer := 0 |} |}
      [[172]] = Normal (Num <$> before) [[172]] /\
    Uint1Array_reverse {| bitOffset := 1; bitLength := 5; internal := {| buffer := 0 |} |}
      [[172]]
    = Normal {| bitOffset := 1; bitLength := 5; internal := {| buffer := 0 |} |} h' /\
    Uint1Array_iterator {| bitOffset := 1; bitLength := 5; internal := {| buffer := 0 |} |} h'
    = Normal (Num <$> reverse before) h' /\
    Uint1Array_reverse {| bitOffset := 1; bitLength := 5; internal := {| buffer := 0 |} |} h'
    = Normal {| bitOffset := 1; bitLength := 5; internal := {| buffer := 0 |} |} h'' /\
    Uint1Array_iterator {| bitOffset := 1; bitLength := 5; internal := {| buffer := 0 |} |} h''
    = Normal (Num <$> before) h''.
Proof.
  apply (reverse_reverses [[172]]
           {| bitOffset := 1; bitLength := 5; internal := {| buffer := 0 |} |}).
  exists [172]. simpl. repeat split; lia.
Defined.

(* ===================================================================== *)
(** ** Further properties: map, copyWithin and filter *)
(* ===================================================================== *)

Lemma bind_Normal {A B : Type} (m : JS A) (k : A -> JS B) (h h' : list (list Z)) (x : A) :
  m h = Normal x h' -> bind m k h = k x h'.
Proof. intros Hm. unfold bind. rewrite Hm. reflexivity. Qed.

(** [for_loop_writes] for a body that also depends on a part of the heap
    that the writes keep. *)
Lemma for_loop_writes_inv (Inv : list (list Z) -> Prop) (id : nat) (o lo hi : Z) (L : nat)
    (val : Z -> JsValue) (body : Z -> JS unit) :
  (forall (h : list (list Z)) (buf' : list Z), Inv h -> Inv (<[id := buf']> h)) ->
  0 <= lo + o -> hi + o <= 8 * Z.of_nat L ->
  (forall i (h : list (list Z)) (buf : list Z),
      lo <= i < hi -> Inv h -> h !! id = Some buf -> length buf = L ->
      body i h = Normal tt (<[id := buf_set buf (i + o) (val i)]> h)) ->
  forall (n : nat) (s : Z) (h : list (list Z)) (buf : list Z),
    Inv h -> h !! id = Some buf -> length buf = L ->
    lo <= s -> s + Z.of_nat n <= hi ->
    exists buf' : list Z,
      for_loop s n body h = Normal tt (<[id := buf']> h) /\
      length buf' = L /\
      forall j, 0 <= j ->
        buf_bit buf' j
        = if (s + o <=? j) && (j <? s + o + Z.of_nat n)
          then and1 (val (j - o)) else buf_bit buf j.
Proof.
  intros Hinv Hlo Hhi Hbody n. induction n as [| n IH]; intros s h buf HI Hbuf Hlen Hs Hn.
  - exists buf. split; [| split].
    + simpl. unfold ret. rewrite list_insert_id by exact Hbuf. reflexivity.
    + exact Hlen.
    + intros j Hj.
      destruct (Z.leb_spec (s + o) j), (Z.ltb_spec j (s + o + Z.of_nat 0)); simpl; trivial; lia.
  - set (buf1 := buf_set buf (s + o) (val s)).
    assert (Hlen1 : length buf1 = L) by (unfold buf1; rewrite buf_set_length; exact Hlen).
    destruct (IH (s + 1) (<[id := buf1]> h) buf1) as (buf' & Hrun & Hlen' & Hbits);
      [apply Hinv, HI | eapply heap_insert_lookup, Hbuf | exact Hlen1 | lia | lia |].
    exists buf'. split; [| split].
    + simpl. unfold bind. rewrite (Hbody s h buf) by (trivial || lia).
      fold buf1. rewrite Hrun, list_insert_insert_eq. reflexivity.
    + exact Hlen'.
    + intros j Hj. rewrite Hbits by exact Hj.
      unfold buf1. rewrite buf_bit_set by lia.
      destruct (Z.leb_spec (s + 1 + o) j), (Z.ltb_spec j (s + 1 + o + Z.of_nat n)),
               (Z.leb_spec (s + o) j), (Z.ltb_spec j (s + o + Z.of_nat (S n))),
               (Z.eqb_spec j (s + o)); simpl; trivial; try lia.
      subst j. f_equal. f_equal. lia.
Qed.

(** X15. [map] with a callback without effects, on a valid vector: the result
    is a new vector of the same length over a fresh buffer appended to the
    heap; its element [k] is the low bit of the callback's result on
    element [k] and index [k]; the source reads as before and existing
    buffers are untouched. *)
Theorem map_elementwise (h : list (list Z)) (a : Uint1Array) (f : JsValue -> Z -> JsValue) :
  valid h a ->
  exists (before : list Z) (b : Uint1Array) (buf' : list Z),
    Uint1Array_iterator a h = Normal (Num <$> before) h /\
    Uint1Array_map a (pure_callback f) h = Normal b (h ++ [buf']) /\
    buffer (internal b) = length h /\
    bitLength b = bitLength a /\
    Uint1Array_iterator b (h ++ [buf'])
    = Normal (Num <$> imap (fun k x => and1 (f (Num x) (Z.of_nat k))) before) (h ++ [buf']) /\
    Uint1Array_iterator a (h ++ [buf']) = Normal (Num <$> before) (h ++ [buf']).
Proof.
  intros Hv. pose proof Hv as (buf & Hbuf & Hoff & Hlen & Hwin).
  set (N := bitLength a).
  set (zeros := replicate (Z.to_nat (ceil_div8 N)) 0).
  set (b := {| bitOffset := 0; bitLength := N; internal := {| buffer := length h |} |}).
  destruct (ceil_div8_bounds N ltac:(lia)) as [Hc0 Hc].
  assert (Hz : Z.of_nat (length zeros) = ceil_div8 N)
    by (unfold zeros; rewrite length_replicate; lia).
  assert (Hsrc : (buffer (internal a) < length h)%nat) by (eapply lookup_lt_Some, Hbuf).
  destruct (for_loop_writes_inv
              (fun h0 => h0 !! buffer (internal a) = Some buf)
              (length h) 0 0 N (length zeros)
              (fun i => f (Num (buf_bit buf (i + bitOffset a))) i)
              (fun i => let* x := get_element a i in
                        let* y := pure_callback f x i a in
                        put_element b i y))
    with (n := Z.to_nat N) (s := 0) (h := h ++ [zeros]) (buf := zeros)
    as (buf' & Hrun & Hlen' & Hbits); try lia.
  - intros h0 buf0 HI. rewrite list_lookup_insert_ne by lia. exact HI.
  - intros i h0 buf0 Hi HI Hbuf0 Hlen0. unfold bind.
    rewrite (get_element_in_range h0 a buf) by (trivial; lia).
    unfold pure_callback, ret.
    rewrite (put_element_in_range h0 b buf0) by (simpl; trivial; lia).
    simpl. rewrite Z.add_0_r. reflexivity.
  - rewrite lookup_app_l by exact Hsrc. exact Hbuf.
  - apply heap_alloc_lookup.
  - rewrite heap_alloc_insert in Hrun.
    assert (Hva : valid (h ++ [buf']) a).
    { exists buf. rewrite lookup_app_l by exact Hsrc. auto. }
    assert (Hvb : valid (h ++ [buf']) b).
    { exists buf'. split; [apply heap_alloc_lookup |]. simpl. lia. }
    assert (Hsame : elements_of (h ++ [buf']) a = elements_of h a).
    { unfold elements_of. rewrite lookup_app_l by exact Hsrc. reflexivity. }
    exists (elements_of h a), b, buf'.
    split; [apply iterator_elements, Hv |].
    split.
    { assert (Hnew : Uint1Array_new (SrcNumber (bitLength a)) None None h
                     = Normal b (h ++ [zeros])).
      { unfold Uint1Array_new. simpl. fold N.
        destruct (Z.ltb_spec N 0); [lia | reflexivity]. }
      unfold Uint1Array_map. rewrite (bind_Normal _ _ _ _ _ Hnew).
      fold N. rewrite (bind_Normal _ _ _ _ _ Hrun). reflexivity. }
    split; [reflexivity |]. split; [reflexivity |].
    split; [| rewrite (iterator_elements _ _ Hva), Hsame; reflexivity].
    rewrite (iterator_elements _ _ Hvb). do 2 f_equal.
    rewrite (elements_of_lookup _ b buf') by apply heap_alloc_lookup.
    rewrite (elements_of_lookup h a buf) by exact Hbuf.
    apply list_eq. intros k. rewrite list_lookup_imap.
    destruct (decide (Z.of_nat k < N)) as [Hk | Hk].
    + rewrite !window_bits_lookup by (simpl; lia). simpl.
      rewrite Hbits by lia.
      destruct (Z.leb_spec (0 + 0) (Z.of_nat k + 0)); [| lia].
      destruct (Z.ltb_spec (Z.of_nat k + 0) (0 + 0 + Z.of_nat (Z.to_nat N))); [| lia].
      simpl. replace (Z.of_nat k + 0 - 0) with (Z.of_nat k) by lia. reflexivity.
    + rewrite !lookup_ge_None_2 by (rewrite window_bits_length; simpl; lia).
      reflexivity.
Qed.

Lemma map_elementwise_witness :
  exists (before : list Z) (b : Uint1Array) (buf' : list Z),
    Uint1Array_iterator {| bitOffset := 1; bitLength := 5; internal := {| buffer := 0 |} |}
      [[172]] = Normal (Num <$> before) [[172]] /\
    Uint1Array_map {| bitOffset := 1; bitLength := 5; internal := {| buffer := 0 |} |}
      (pure_callback (fun x i => match x with Num n => Num (n + i) | Undefined => x end))
      [[172]] = Normal b ([[172]] ++ [buf']) /\
    buffer (internal b) = 1%nat /\
    bitLength b = 5 /\
    Uint1Array_iterator b ([[172]] ++ [buf'])
    = Normal (Num <$> imap (fun k x => and1 (Num (x + Z.of_nat k))) before)
        ([[172]] ++ [buf']) /\
    Uint1Array_iterator {| bitOffset := 1; bitLength := 5; internal := {| buffer := 0 |} |}
      ([[172]] ++ [buf']) = Normal (Num <$> before) ([[172]] ++ [buf']).
Proof.
  apply (map_elementwise [[172]]
           {| bitOffset := 1; bitLength := 5; internal := {| buffer := 0 |} |}
           (fun x i => match x with Num n => Num (n + i) | Undefined => x end)).
  exists [172]. simpl. repeat split; lia.
Defined.

(** The heap is left alone by [subarray] and by the constructor on a
    vector, so [slice] throws in the heap it was called in. *)
Lemma Uint1Array_subarray_heap (h : list (list Z)) (a : Uint1Array) (begin end_ : option Z) :
  heap_of (Uint1Array_subarray a begin end_ h) = h.
Proof.
  unfold Uint1Array_subarray, Uint1Array_new. simpl.
  unfold bind, source_byteLength, throw, ret. simpl.
  repeat match goal with
         | |- context [if ?c then _ else _] => no_test c; destruct c
         end; reflexivity.
Qed.

Lemma Uint1Array_slice_throws_in_place (h : list (list Z)) (a : Uint1Array)
    (start end_ : option Z) :
  exists e : Exception, Uint1Array_slice a start end_ h = Throw e h.
Proof.
  unfold Uint1Array_slice, bind.
  pose proof (Uint1Array_subarray_heap h a start end_) as Hh.
  destruct (Uint1Array_subarray a start end_ h) as [sub h1 | e h1]; simpl in Hh; subst h1.
  - apply Uint1Array_new_vector_throws.
  - exists e. reflexivity.
Qed.

(** X16. [copyWithin] and [filter] both go through [slice] and therefore never
    return: [copyWithin] throws before it writes anything, for every
    vector and all arguments, and [filter] throws for every vector and
    every callback. *)
Theorem copyWithin_and_filter_throw (h : list (list Z)) (this : Uint1Array) :
  (forall (target : Z) (start end_ : option Z),
      exists e : Exception, Uint1Array_copyWithin this target start end_ h = Throw e h) /\
  (forall predicate : JsValue -> Z -> Uint1Array -> JS bool,
      exists (e : Exception) (h' : list (list Z)),
        Uint1Array_filter this predicate h = Throw e h').
Proof.
  split.
  - intros target start end_. unfold Uint1Array_copyWithin, bind.
    destruct (Uint1Array_slice_throws_in_place h this start end_) as [e He].
    rewrite He. exists e. reflexivity.
  - intros predicate. unfold Uint1Array_filter, bind.
    destruct (Uint1Array_new (SrcNumber (bitLength this)) None None h) as [array h1 | e h1];
      [| exists e, h1; reflexivity].
    destruct (filter_loop this array predicate 0 (Z.to_nat (bitLength this)) 0 h1)
      as [len h2 | e h2]; [| exists e, h2; reflexivity].
    destruct (Uint1Array_slice_throws_in_place h2 array (Some 0) (Some len)) as [e He].
    exists e, h2. exact He.
Qed.

(* ===================================================================== *)
(** ** Further properties: scans *)
(* ===================================================================== *)

Section Scan.
Variables (h : list (list Z)) (a : Uint1Array) (buf : list Z).
Hypothesis Hbuf : h !! buffer (internal a) = Some buf.
Hypothesis Hoff : 0 <= bitOffset a.
Hypothesis Hwin : bitOffset a + bitLength a <= 8 * Z.of_nat (length buf).

Lemma get_element_any (j : Z) :
  get_element a j h = Normal (element_at buf a j) h.
Proof using Hbuf Hoff Hwin.
  unfold element_at.
  destruct (Z.leb_spec 0 j) as [H0 | H0]; simpl.
  - destruct (Z.ltb_spec j (bitLength a)) as [H1 | H1].
    + apply get_element_in_range; trivial. lia.
    + unfold get_element, proxy_get. rewrite index_ok_inject_Z.
      destruct (Z.leb_spec 0 j); [| lia].
      destruct (Z.ltb_spec j (bitLength a)); [lia | reflexivity].
  - unfold get_element, proxy_get. rewrite index_ok_inject_Z.
    destruct (Z.leb_spec 0 j); [lia | reflexivity].
Qed.

Lemma every_some_loops (p : JsValue -> Z -> bool) (n : nat) :
  forall i : Z,
    exists r_every r_some : bool,
      every_loop a (pure_callback p) i n h = Normal r_every h /\
      some_loop a (pure_callback p) i n h = Normal r_some h /\
      (r_every = true <->
       forall j, i <= j < i + Z.of_nat n -> p (element_at buf a j) j = true) /\
      (r_some = true <->
       exists j, i <= j < i + Z.of_nat n /\ p (element_at buf a j) j = true).
Proof using Hbuf Hoff Hwin.
  induction n as [| n IH]; intros i.
  - exists true, false. repeat split; try reflexivity; try discriminate.
    + intros; lia.
    + intros (j & Hj & _). lia.
  - destruct (IH (i + 1)) as (re & rs & He & Hs & Hre & Hrs).
    simpl. unfold bind. rewrite get_element_any. unfold pure_callback at 1 3, ret at 1 3.
    destruct (p (element_at buf a i) i) eqn:Hp.
    + exists re, true. split; [exact He |]. split; [reflexivity |]. split.
      * rewrite Hre. split.
        -- intros Hall j Hj. destruct (Z.eq_dec j i) as [-> | Hne]; [exact Hp | apply Hall; lia].
        -- intros Hall j Hj. apply Hall. lia.
      * split; [intros _; exists i; split; [lia | exact Hp] | reflexivity].
    + exists false, rs. split; [reflexivity |]. split; [exact Hs |]. split.
      * split; [discriminate |]. intros Hall. rewrite Hall in Hp by lia. discriminate.
      * rewrite Hrs. split.
        -- intros (j & Hj & Hpj). exists j. split; [lia | exact Hpj].
        -- intros (j & Hj & Hpj). exists j. split; [| exact Hpj].
           destruct (Z.eq_dec j i) as [-> | Hne]; [congruence | lia].
Qed.

Lemma find_loops (p : JsValue -> Z -> bool) (n : nat) :
  forall i : Z,
    exists (r : Z) (v : JsValue),
      findIndex_loop a (pure_callback p) i n h = Normal r h /\
      find_loop a (pure_callback p) i n h = Normal v h /\
      ((r = -1 /\ v = Undefined /\
        forall j, i <= j < i + Z.of_nat n -> p (element_at buf a j) j = false) \/
       (i <= r < i + Z.of_nat n /\ v = element_at buf a r /\
        p (element_at buf a r) r = true /\
        forall j, i <= j < r -> p (element_at buf a j) j = false)).
Proof using Hbuf Hoff Hwin.
  induction n as [| n IH]; intros i.
  - exists (-1), Undefined. repeat split. left. repeat split. intros; lia.
  - destruct (IH (i + 1)) as (r & v & Hr & Hv & Hcases).
    simpl. unfold bind. rewrite get_element_any. unfold pure_callback at 1 3, ret at 1 3.
    destruct (p (element_at buf a i) i) eqn:Hp.
    + exists i, (element_at buf a i). split; [reflexivity |].
      split; [apply get_element_any |]. right.
      split; [lia |]. split; [reflexivity |]. split; [exact Hp |]. intros; lia.
    + exists r, v. split; [exact Hr |]. split; [exact Hv |].
      destruct Hcases as [(-> & -> & Hall) | (Hrange & -> & Htrue & Hleast)].
      * left. repeat split. intros j Hj.
        destruct (Z.eq_dec j i) as [-> | Hne]; [exact Hp | apply Hall; lia].
      * right. split; [lia |]. split; [reflexivity |]. split; [exact Htrue |].
        intros j Hj. destruct (Z.eq_dec j i) as [-> | Hne]; [exact Hp | apply Hleast; lia].
Qed.

Lemma index_loops (s : JsValue) (n : nat) :
  forall i : Z,
    exists (r : Z) (found : bool),
      indexOf_loop a s i n h = Normal r h /\
      includes_loop a s i n h = Normal found h /\
      ((found = false /\ r = -1 /\
        forall j, i <= j < i + Z.of_nat n -> strict_eq (element_at buf a j) s = false) \/
       (found = true /\ i <= r < i + Z.of_nat n /\
        strict_eq (element_at buf a r) s = true /\
        forall j, i <= j < r -> strict_eq (element_at buf a j) s = false)).
Proof using Hbuf Hoff Hwin.
  induction n as [| n IH]; intros i.
  - exists (-1), false. repeat split. left. repeat split. intros; lia.
  - destruct (IH (i + 1)) as (r & found & Hr & Hf & Hcases).
    simpl. unfold bind. rewrite get_element_any.
    destruct (strict_eq (element_at buf a i) s) eqn:Hp.
    + exists i, true. split; [reflexivity |]. split; [reflexivity |]. right.
      split; [reflexivity |]. split; [lia |]. split; [exact Hp |]. intros; lia.
    + exists r, found. split; [exact Hr |]. split; [exact Hf |].
      destruct Hcases as [(-> & -> & Hall) | (-> & Hrange & Htrue & Hleast)].
      * left. repeat split. intros j Hj.
        destruct (Z.eq_dec j i) as [-> | Hne]; [exact Hp | apply Hall; lia].
      * right. split; [reflexivity |]. split; [lia |]. split; [exact Htrue |].
        intros j Hj. destruct (Z.eq_dec j i) as [-> | Hne]; [exact Hp | apply Hleast; lia].
Qed.

Lemma lastIndexOf_loop_spec (s : JsValue) (n : nat) :
  forall i : Z,
    exists r : Z,
      lastIndexOf_loop a s i n h = Normal r h /\
      ((r = -1 /\
        forall j, i - Z.of_nat n < j <= i -> strict_eq (element_at buf a j) s = false) \/
       (i - Z.of_nat n < r <= i /\
        strict_eq (element_at buf a r) s = true /\
        forall j, r < j <= i -> strict_eq (element_at buf a j) s = false)).
Proof using Hbuf Hoff Hwin.
  induction n as [| n IH]; intros i.
  - exists (-1). split; [reflexivity |]. left. split; [reflexivity |]. intros; lia.
  - destruct (IH (i - 1)) as (r & Hr & Hcases).
    simpl. unfold bind. rewrite get_element_any.
    destruct (strict_eq (element_at buf a i) s) eqn:Hp.
    + exists i. split; [reflexivity |]. right.
      split; [lia |]. split; [exact Hp |]. intros; lia.
    + exists r. split; [exact Hr |].
      destruct Hcases as [(-> & Hall) | (Hrange & Htrue & Hleast)].
      * left. split; [reflexivity |]. intros j Hj.
        destruct (Z.eq_dec j i) as [-> | Hne]; [exact Hp | apply Hall; lia].
      * right. split; [lia |]. split; [exact Htrue |].
        intros j Hj. destruct (Z.eq_dec j i) as [-> | Hne]; [exact Hp | apply Hleast; lia].
Qed.

End Scan.

Lemma element_at_lookup (buf : list Z) (a : Uint1Array) (k : nat) (x : Z) :
  window_bits buf a !! k = Some x -> element_at buf a (Z.of_nat k) = Num x.
Proof.
  intros Hlk. apply window_bits_lookup_Some in Hlk as [Hk ->]. unfold element_at.
  destruct (Z.leb_spec 0 (Z.of_nat k)); [| lia].
  destruct (Z.ltb_spec (Z.of_nat k) (bitLength a)); [reflexivity | lia].
Qed.

Lemma element_at_Num (buf : list Z) (a : Uint1Array) (j x : Z) :
  element_at buf a j = Num x ->
  0 <= j < bitLength a /\ window_bits buf a !! Z.to_nat j = Some x.
Proof.
  unfold element_at.
  destruct (Z.leb_spec 0 j); [| discriminate].
  destruct (Z.ltb_spec j (bitLength a)); [| discriminate]. simpl.
  intros [= <-]. split; [lia |].
  rewrite window_bits_lookup by lia. rewrite Z2Nat.id by lia. reflexivity.
Qed.

Lemma element_at_inside (buf : list Z) (a : Uint1Array) (j : Z) :
  0 <= j < bitLength a ->
  exists x, window_bits buf a !! Z.to_nat j = Some x /\ element_at buf a j = Num x.
Proof.
  intros Hj. exists (buf_bit buf (j + bitOffset a)). split.
  - rewrite window_bits_lookup by lia. rewrite Z2Nat.id by lia. reflexivity.
  - unfold element_at.
    destruct (Z.leb_spec 0 j); [| lia].
    destruct (Z.ltb_spec j (bitLength a)); [reflexivity | lia].
Qed.

(** X17. [every] and [some] with a callback without effects, on a valid vector:
    [every] is true exactly when the callback holds of every element with
    its index, [some] exactly when it holds of at least one; so an empty
    vector gives [true] and [false]. *)
Theorem every_some_spec (h : list (list Z)) (a : Uint1Array) (p : JsValue -> Z -> bool) :
  valid h a ->
  exists (before : list Z) (r_every r_some : bool),
    Uint1Array_iterator a h = Normal (Num <$> before) h /\
    Uint1Array_every a (pure_callback p) h = Normal r_every h /\
    Uint1Array_some a (pure_callback p) h = Normal r_some h /\
    (r_every = true <->
     forall (k : nat) (x : Z), before !! k = Some x -> p (Num x) (Z.of_nat k) = true) /\
    (r_some = true <->
     exists (k : nat) (x : Z), before !! k = Some x /\ p (Num x) (Z.of_nat k) = true).
Proof.
  intros Hv. pose proof Hv as (buf & Hbuf & Hoff & Hlen & Hwin).
  destruct (every_some_loops h a buf Hbuf Hoff Hwin p (Z.to_nat (bitLength a)) 0)
    as (re & rs & He & Hs & Hre & Hrs).
  exists (elements_of h a), re, rs.
  split; [apply iterator_elements, Hv |]. split; [exact He |]. split; [exact Hs |].
  rewrite (elements_of_lookup _ _ _ Hbuf). split.
  - rewrite Hre. split.
    + intros Hall k x Hlk. rewrite <- (element_at_lookup _ _ _ _ Hlk).
      apply Hall. apply window_bits_lookup_Some in Hlk. lia.
    + intros Hall j Hj.
      destruct (element_at_inside buf a j ltac:(lia)) as (x & Hlk & ->).
      rewrite <- (Z2Nat.id j) by lia. apply Hall, Hlk.
  - rewrite Hrs. split.
    + intros (j & Hj & Hp).
      destruct (element_at_inside buf a j ltac:(lia)) as (x & Hlk & Hx).
      exists (Z.to_nat j), x. split; [exact Hlk |].
      rewrite Z2Nat.id by lia. rewrite <- Hx. exact Hp.
    + intros (k & x & Hlk & Hp). exists (Z.of_nat k).
      rewrite (element_at_lookup _ _ _ _ Hlk).
      apply window_bits_lookup_Some in Hlk. split; [lia | exact Hp].
Qed.

Lemma every_some_spec_witness :
  exists (before : list Z) (r_every r_some : bool),
    Uint1Array_iterator {| bitOffset := 1; bitLength := 5; internal := {| buffer := 0 |} |}
      [[172]] = Normal (Num <$> before) [[172]] /\
    Uint1Array_every {| bitOffset := 1; bitLength := 5; internal := {| buffer := 0 |} |}
      (pure_callback (fun x _ => strict_eq x (Num 1))) [[172]] = Normal r_every [[172]] /\
    Uint1Array_some {| bitOffset := 1; bitLength := 5; internal := {| buffer := 0 |} |}
      (pure_callback (fun x _ => strict_eq x (Num 1))) [[172]] = Normal r_some [[172]] /\
    (r_every = true <->
     forall (k : nat) (x : Z), before !! k = Some x -> strict_eq (Num x) (Num 1) = true) /\
    (r_some = true <->
     exists (k : nat) (x : Z), before !! k = Some x /\ strict_eq (Num x) (Num 1) = true).
Proof.
  apply (every_some_spec [[172]]
           {| bitOffset := 1; bitLength := 5; internal := {| buffer := 0 |} |}
           (fun x _ => strict_eq x (Num 1))).
  exists [172]. simpl. repeat split; lia.
Defined.

(** X18. [findIndex] and [find] with a callback without effects, on a valid
    vector: when no element satisfies the callback they return -1 and
    [undefined]; otherwise [findIndex] returns the least index whose
    element satisfies it and [find] returns the element at that index. *)
Theorem find_findIndex_spec (h : list (list Z)) (a : Uint1Array) (p : JsValue -> Z -> bool) :
  valid h a ->
  exists (before : list Z) (r : Z) (v : JsValue),
    Uint1Array_iterator a h = Normal (Num <$> before) h /\
    Uint1Array_findIndex a (pure_callback p) h = Normal r h /\
    Uint1Array_find a (pure_callback p) h = Normal v h /\
    ((r = -1 /\ v = Undefined /\
      forall (k : nat) (x : Z), before !! k = Some x -> p (Num x) (Z.of_nat k) = false) \/
     (exists x : Z,
         0 <= r /\ before !! Z.to_nat r = Some x /\ v = Num x /\ p (Num x) r = true /\
         forall (k : nat) (y : Z),
           Z.of_nat k < r -> before !! k = Some y -> p (Num y) (Z.of_nat k) = false)).
Proof.
  intros Hv. pose proof Hv as (buf & Hbuf & Hoff & Hlen & Hwin).
  destruct (find_loops h a buf Hbuf Hoff Hwin p (Z.to_nat (bitLength a)) 0)
    as (r & v & Hr & Hfind & Hcases).
  exists (elements_of h a), r, v.
  split; [apply iterator_elements, Hv |]. split; [exact Hr |]. split; [exact Hfind |].
  rewrite (elements_of_lookup _ _ _ Hbuf).
  destruct Hcases as [(-> & -> & Hall) | (Hrange & -> & Htrue & Hleast)].
  - left. repeat split. intros k x Hlk. rewrite <- (element_at_lookup _ _ _ _ Hlk).
    apply Hall. apply window_bits_lookup_Some in Hlk. lia.
  - right. destruct (element_at_inside buf a r ltac:(lia)) as (x & Hlk & Hx).
    exists x. rewrite Hx in Htrue. repeat split; trivial; try lia.
    intros k y Hk Hlk'. rewrite <- (element_at_lookup _ _ _ _ Hlk'). apply Hleast. lia.
Qed.

Lemma find_findIndex_spec_witness :
  exists (before : list Z) (r : Z) (v : JsValue),
    Uint1Array_iterator {| bitOffset := 1; bitLength := 5; internal := {| buffer := 0 |} |}
      [[172]] = Normal (Num <$> before) [[172]] /\
    Uint1Array_findIndex {| bitOffset := 1; bitLength := 5; internal := {| buffer := 0 |} |}
      (pure_callback (fun x _ => strict_eq x (Num 1))) [[172]] = Normal r [[172]] /\
    Uint1Array_find {| bitOffset := 1; bitLength := 5; internal := {| buffer := 0 |} |}
      (pure_callback (fun x _ => strict_eq x (Num 1))) [[172]] = Normal v [[172]] /\
    ((r = -1 /\ v = Undefined /\
      forall (k : nat) (x : Z), before !! k = Some x -> strict_eq (Num x) (Num 1) = false) \/
     (exists x : Z,
         0 <= r /\ before !! Z.to_nat r = Some x /\ v = Num x /\
         strict_eq (Num x) (Num 1) = true /\
         forall (k : nat) (y : Z),
           Z.of_nat k < r -> before !! k = Some y -> strict_eq (Num y) (Num 1) = false)).
Proof.
  apply (find_findIndex_spec [[172]]
           {| bitOffset := 1; bitLength := 5; internal := {| buffer := 0 |} |}
           (fun x _ => strict_eq x (Num 1))).
  exists [172]. simpl. repeat split; lia.
Defined.

Lemma strict_eq_Num_true (v : JsValue) (b : Z) :
  strict_eq v (Num b) = true <-> v = Num b.
Proof.
  destruct v as [| x]; simpl; [split; discriminate |].
  rewrite Z.eqb_eq. split; [intros ->; reflexivity | intros [= ->]; reflexivity].
Qed.

Lemma strict_eq_Num_false (x b : Z) : strict_eq (Num x) (Num b) = false -> x <> b.
Proof. simpl. apply Z.eqb_neq. Qed.

(** X19. [indexOf] and [includes] for a number [b], on a valid vector, scanning
    from [fromIndex] (default 0; a negative one acts as 0, it is not
    counted from the end): [indexOf] returns the least index from there on
    whose element is [b], or -1 when there is none, and [includes] tells
    whether [indexOf] found one.  The loop counter is a JavaScript number:
    [fromIndex] and the length are taken within the integers that [i++]
    steps through exactly, from [-2^53] to [2^53]. *)
Theorem indexOf_includes_spec (h : list (list Z)) (a : Uint1Array) (b : Z)
    (fromIndex : option Z) :
  let f := Z.max 0 (default 0 fromIndex) in
  valid h a ->
  - 2 ^ 53 <= default 0 fromIndex ->
  bitLength a <= 2 ^ 53 ->
  exists (before : list Z) (r : Z),
    Uint1Array_iterator a h = Normal (Num <$> before) h /\
    Uint1Array_indexOf a (Num b) fromIndex h = Normal r h /\
    Uint1Array_includes a (Num b) fromIndex h = Normal (negb (r =? -1)) h /\
    ((r = -1 /\ forall k : nat, f <= Z.of_nat k -> before !! k <> Some b) \/
     (f <= r /\ before !! Z.to_nat r = Some b /\
      forall k : nat, f <= Z.of_nat k < r -> before !! k <> Some b)).
Proof.
  intros f Hv _ _. pose proof Hv as (buf & Hbuf & Hoff & Hlen & Hwin).
  set (from := default 0 fromIndex) in *.
  destruct (index_loops h a buf Hbuf Hoff Hwin (Num b) (Z.to_nat (bitLength a - from)) from)
    as (r & found & Hr & Hf & Hcases).
  exists (elements_of h a), r.
  split; [apply iterator_elements, Hv |]. split; [exact Hr |].
  rewrite (elements_of_lookup _ _ _ Hbuf).
  destruct Hcases as [(-> & -> & Hall) | (-> & Hrange & Htrue & Hleast)].
  - split; [exact Hf |]. left. split; [reflexivity |].
    intros k Hk Hlk. pose proof (element_at_lookup _ _ _ _ Hlk) as He.
    apply window_bits_lookup_Some in Hlk as [Hlt _].
    specialize (Hall (Z.of_nat k) ltac:(lia)). rewrite He in Hall.
    apply strict_eq_Num_false in Hall. congruence.
  - apply strict_eq_Num_true in Htrue. apply element_at_Num in Htrue as [Hr0 Hlk].
    split; [destruct (Z.eqb_spec r (-1)); [lia | exact Hf] |].
    right. split; [lia |]. split; [exact Hlk |].
    intros k Hk Hlk'. pose proof (element_at_lookup _ _ _ _ Hlk') as He.
    specialize (Hleast (Z.of_nat k) ltac:(lia)). rewrite He in Hleast.
    apply strict_eq_Num_false in Hleast. congruence.
Qed.

Lemma indexOf_includes_spec_witness :
  exists (before : list Z) (r : Z),
    Uint1Array_iterator {| bitOffset := 1; bitLength := 5; internal := {| buffer := 0 |} |}
      [[172]] = Normal (Num <$> before) [[172]] /\
    Uint1Array_indexOf {| bitOffset := 1; bitLength := 5; internal := {| buffer := 0 |} |}
      (Num 1) (Some (- 3)) [[172]] = Normal r [[172]] /\
    Uint1Array_includes {| bitOffset := 1; bitLength := 5; internal := {| buffer := 0 |} |}
      (Num 1) (Some (- 3)) [[172]] = Normal (negb (r =? -1)) [[172]] /\
    ((r = -1 /\ forall k : nat, 0 <= Z.of_nat k -> before !! k <> Some 1) \/
     (0 <= r /\ before !! Z.to_nat r = Some 1 /\
      forall k : nat, 0 <= Z.of_nat k < r -> before !! k <> Some 1)).
Proof.
  apply (indexOf_includes_spec [[172]]
           {| bitOffset := 1; bitLength := 5; internal := {| buffer := 0 |} |}
           1 (Some (- 3))).
  - exists [172]. simpl. repeat split; lia.
  - simpl. lia.
  - simpl. lia.
Defined.

(** X20. Searching for [undefined] from a negative [fromIndex]: the scan starts
    at the negative index, where a read yields [undefined], so [includes]
    answers [true] and [indexOf] returns [fromIndex] itself. *)
Theorem search_undefined_from_negative (h : list (list Z)) (a : Uint1Array) (from : Z) :
  valid h a ->
  from < 0 ->
  Uint1Array_includes a Undefined (Some from) h = Normal true h /\
  Uint1Array_indexOf a Undefined (Some from) h = Normal from h.
Proof.
  intros (buf & Hbuf & Hoff & Hlen & Hwin) Hneg.
  destruct (index_loops h a buf Hbuf Hoff Hwin Undefined (Z.to_nat (bitLength a - from)) from)
    as (r & found & Hr & Hf & Hcases).
  assert (Hfirst : strict_eq (element_at buf a from) Undefined = true).
  { unfold element_at. destruct (Z.leb_spec 0 from); [lia | reflexivity]. }
  destruct Hcases as [(-> & -> & Hall) | (-> & Hrange & Htrue & Hleast)].
  - rewrite Hall in Hfirst by lia. discriminate.
  - destruct (Z.eq_dec r from) as [-> | Hne].
    + split; [exact Hf | exact Hr].
    + rewrite Hleast in Hfirst by lia. discriminate.
Qed.

Lemma search_undefined_from_negative_witness :
  Uint1Array_includes {| bitOffset := 1; bitLength := 5; internal := {| buffer := 0 |} |}
    Undefined (Some (- 2)) [[172]] = Normal true [[172]] /\
  Uint1Array_indexOf {| bitOffset := 1; bitLength := 5; internal := {| buffer := 0 |} |}
    Undefined (Some (- 2)) [[172]] = Normal (- 2) [[172]].
Proof.
  apply (search_undefined_from_negative [[172]]
           {| bitOffset := 1; bitLength := 5; internal := {| buffer := 0 |} |} (- 2)).
  - exists [172]. simpl. repeat split; lia.
  - lia.
Defined.

(** X21. [lastIndexOf] for a number [b], on a valid vector, scanning down from
    [fromIndex] (default and upper limit: the last index): it returns the
    greatest index up to there whose element is [b], or -1 when there is
    none.  The loop counter is a JavaScript number: [fromIndex] and the
    length are taken within the integers that [i--] steps through exactly,
    up to [2^53]. *)
Theorem lastIndexOf_spec (h : list (list Z)) (a : Uint1Array) (b : Z)
    (fromIndex : option Z) :
  let f := Z.min (default (bitLength a - 1) fromIndex) (bitLength a - 1) in
  valid h a ->
  default (bitLength a - 1) fromIndex <= 2 ^ 53 ->
  bitLength a <= 2 ^ 53 ->
  exists (before : list Z) (r : Z),
    Uint1Array_iterator a h = Normal (Num <$> before) h /\
    Uint1Array_lastIndexOf a (Num b) fromIndex h = Normal r h /\
    ((r = -1 /\ forall k : nat, Z.of_nat k <= f -> before !! k <> Some b) \/
     (0 <= r <= f /\ before !! Z.to_nat r = Some b /\
      forall k : nat, r < Z.of_nat k <= f -> before !! k <> Some b)).
Proof.
  intros f Hv _ _. pose proof Hv as (buf & Hbuf & Hoff & Hlen & Hwin).
  set (from := default (bitLength a - 1) fromIndex) in *.
  destruct (lastIndexOf_loop_spec h a buf Hbuf Hoff Hwin (Num b) (Z.to_nat (from + 1)) from)
    as (r & Hr & Hcases).
  exists (elements_of h a), r.
  split; [apply iterator_elements, Hv |]. split; [exact Hr |].
  rewrite (elements_of_lookup _ _ _ Hbuf).
  destruct Hcases as [(-> & Hall) | (Hrange & Htrue & Hleast)].
  - left. split; [reflexivity |].
    intros k Hk Hlk. pose proof (element_at_lookup _ _ _ _ Hlk) as He.
    specialize (Hall (Z.of_nat k) ltac:(lia)). rewrite He in Hall.
    apply strict_eq_Num_false in Hall. congruence.
  - apply strict_eq_Num_true in Htrue. apply element_at_Num in Htrue as [Hr0 Hlk].
    right. split; [lia |]. split; [exact Hlk |].
    intros k Hk Hlk'. pose proof (element_at_lookup _ _ _ _ Hlk') as He.
    specialize (Hleast (Z.of_nat k) ltac:(lia)). rewrite He in Hleast.
    apply strict_eq_Num_false in Hleast. congruence.
Qed.

Lemma lastIndexOf_spec_witness :
  exists (before : list Z) (r : Z),
    Uint1Array_iterator {| bitOffset := 1; bitLength := 5; internal := {| buffer := 0 |} |}
      [[172]] = Normal (Num <$> before) [[172]] /\
    Uint1Array_lastIndexOf {| bitOffset := 1; bitLength := 5; internal := {| buffer := 0 |} |}
      (Num 1) (Some 9) [[172]] = Normal r [[172]] /\
    ((r = -1 /\ forall k : nat, Z.of_nat k <= 4 -> before !! k <> Some 1) \/
     (0 <= r <= 4 /\ before !! Z.to_nat r = Some 1 /\
      forall k : nat, r < Z.of_nat k <= 4 -> before !! k <> Some 1)).
Proof.
  apply (lastIndexOf_spec [[172]]
           {| bitOffset := 1; bitLength := 5; internal := {| buffer := 0 |} |}
           1 (Some 9)).
  - exists [172]. simpl. repeat split; lia.
  - simpl. lia.
  - simpl. lia.
Defined.

(* ===================================================================== *)
(** ** Further properties: folds and generators *)
(* ===================================================================== *)

Lemma reduce_loop_spec {T : Type} (h : list (list Z)) (a : Uint1Array) (buf : list Z)
    (f : T -> JsValue -> Z -> T) :
  h !! buffer (internal a) = Some buf ->
  0 <= bitOffset a ->
  bitOffset a + bitLength a <= 8 * Z.of_nat (length buf) ->
  forall (l : list Z) (i : Z) (acc : T),
    (forall (k : nat) (x : Z), l !! k = Some x -> element_at buf a (i + Z.of_nat k) = Num x) ->
    reduce_loop a (fun acc x i _ => ret (f acc x i)) i (length l) acc h
    = Normal (fold_elements f i l acc) h.
Proof.
  intros Hbuf Hoff Hwin l. induction l as [| x l IH]; intros i acc Hl; [reflexivity |].
  simpl. unfold bind. rewrite (get_element_any h a buf) by assumption.
  pose proof (Hl O x eq_refl) as H0. rewrite Z.add_0_r in H0. rewrite H0.
  unfold ret at 1. apply IH. intros k y Hk.
  rewrite <- (Hl (S k) y Hk). f_equal. lia.
Qed.

Lemma fold_elements_right_app {T : Type} (f : T -> JsValue -> Z -> T) (l : list Z) (x : Z) :
  forall (i : Z) (acc : T),
    fold_elements_right f i (l ++ [x]) acc
    = fold_elements_right f i l (f acc (Num x) (i + Z.of_nat (length l))).
Proof.
  induction l as [| y l IH]; intros i acc; simpl.
  - rewrite Z.add_0_r. reflexivity.
  - rewrite IH. do 3 f_equal. lia.
Qed.

Lemma reduceRight_loop_spec {T : Type} (h : list (list Z)) (a : Uint1Array) (buf : list Z)
    (f : T -> JsValue -> Z -> T) :
  h !! buffer (internal a) = Some buf ->
  0 <= bitOffset a ->
  bitOffset a + bitLength a <= 8 * Z.of_nat (length buf) ->
  forall (l : list Z) (i : Z) (acc : T),
    (forall (k : nat) (x : Z), l !! k = Some x -> element_at buf a (i + Z.of_nat k) = Num x) ->
    reduceRight_loop a (fun acc x i _ => ret (f acc x i))
      (i + Z.of_nat (length l) - 1) (length l) acc h
    = Normal (fold_elements_right f i l acc) h.
Proof.
  intros Hbuf Hoff Hwin l. induction l as [| x l IH] using rev_ind; intros i acc Hl;
    [reflexivity |].
  rewrite length_app, Nat.add_1_r. simpl. unfold bind.
  rewrite (get_element_any h a buf) by assumption.
  replace (i + Z.of_nat (S (length l)) - 1) with (i + Z.of_nat (length l)) by lia.
  rewrite (Hl (length l) x) by (apply list_lookup_middle; reflexivity).
  unfold ret at 1. rewrite fold_elements_right_app.
  apply IH. intros k y Hk. apply Hl. apply lookup_app_l_Some, Hk.
Qed.

(** X22. [reduce] and [reduceRight] with a callback without effects, on a valid
    vector: [reduce] folds the callback over the elements with their
    indices from the first to the last, [reduceRight] from the last to the
    first, both starting from the seed. *)
Theorem reduce_folds (T : Type) (h : list (list Z)) (a : Uint1Array)
    (f : T -> JsValue -> Z -> T) (initialValue : T) :
  valid h a ->
  exists before : list Z,
    Uint1Array_iterator a h = Normal (Num <$> before) h /\
    Uint1Array_reduce a (fun acc x i _ => ret (f acc x i)) initialValue h
    = Normal (fold_elements f 0 before initialValue) h /\
    Uint1Array_reduceRight a (fun acc x i _ => ret (f acc x i)) initialValue h
    = Normal (fold_elements_right f 0 before initialValue) h.
Proof.
  intros Hv. pose proof Hv as (buf & Hbuf & Hoff & Hlen & Hwin).
  exists (elements_of h a). split; [apply iterator_elements, Hv |].
  rewrite (elements_of_lookup _ _ _ Hbuf).
  assert (Hcorr : forall (k : nat) (x : Z),
             window_bits buf a !! k = Some x ->
             element_at buf a (0 + Z.of_nat k) = Num x).
  { intros k x Hk. apply element_at_lookup, Hk. }
  split.
  - unfold Uint1Array_reduce. rewrite <- (window_bits_length buf a).
    apply (reduce_loop_spec h a buf); assumption.
  - unfold Uint1Array_reduceRight. rewrite <- (window_bits_length buf a).
    replace (bitLength a - 1) with (0 + Z.of_nat (length (window_bits buf a)) - 1)
      by (rewrite window_bits_length; lia).
    apply (reduceRight_loop_spec h a buf); assumption.
Qed.

Lemma reduce_folds_witness :
  exists before : list Z,
    Uint1Array_iterator {| bitOffset := 1; bitLength := 5; internal := {| buffer := 0 |} |}
      [[172]] = Normal (Num <$> before) [[172]] /\
    Uint1Array_reduce {| bitOffset := 1; bitLength := 5; internal := {| buffer := 0 |} |}
      (fun acc x i _ => ret (acc + and1 x)) 0 [[172]]
    = Normal (fold_elements (fun acc x _ => acc + and1 x) 0 before 0) [[172]] /\
    Uint1Array_reduceRight {| bitOffset := 1; bitLength := 5; internal := {| buffer := 0 |} |}
      (fun acc x i _ => ret (acc + and1 x)) 0 [[172]]
    = Normal (fold_elements_right (fun acc x _ => acc + and1 x) 0 before 0) [[172]].
Proof.
  apply (reduce_folds Z [[172]]
           {| bitOffset := 1; bitLength := 5; internal := {| buffer := 0 |} |}
           (fun acc x _ => acc + and1 x) 0).
  exists [172]. simpl. repeat split; lia.
Defined.

Lemma keys_from_seqZ (n : nat) : forall i : Z, keys_from i n = seqZ i (Z.of_nat n).
Proof.
  induction n as [| n IH]; intros i; [reflexivity |].
  simpl keys_from. rewrite IH, (seqZ_cons i (Z.of_nat (S n))) by lia.
  do 2 f_equal; lia.
Qed.

Lemma entries_from_spec (h : list (list Z)) (a : Uint1Array) (buf : list Z) :
  h !! buffer (internal a) = Some buf ->
  0 <= bitOffset a ->
  bitOffset a + bitLength a <= 8 * Z.of_nat (length buf) ->
  forall (l : list Z) (i : Z),
    (forall (k : nat) (x : Z), l !! k = Some x -> element_at buf a (i + Z.of_nat k) = Num x) ->
    entries_from a i (length l) h
    = Normal (zip (keys_from i (length l)) (Num <$> l)) h.
Proof.
  intros Hbuf Hoff Hwin l. induction l as [| x l IH]; intros i Hl; [reflexivity |].
  simpl. unfold bind. rewrite (get_element_any h a buf) by assumption.
  pose proof (Hl O x eq_refl) as H0. rewrite Z.add_0_r in H0. rewrite H0.
  rewrite IH; [reflexivity |]. intros k y Hk.
  rewrite <- (Hl (S k) y Hk). f_equal. lia.
Qed.

(** X23. The three generators: [keys()] yields the indices [0 .. length - 1]
    whatever the heap; on a valid vector [values()] yields the same
    elements as the iterator and [entries()] pairs each index with its
    element. *)
Theorem generators_spec (h : list (list Z)) (a : Uint1Array) :
  Uint1Array_keys a h = Normal (seqZ 0 (bitLength a)) h /\
  (valid h a ->
   exists before : list Z,
     Uint1Array_iterator a h = Normal (Num <$> before) h /\
     Uint1Array_values a h = Normal (Num <$> before) h /\
     Uint1Array_entries a h = Normal (zip (seqZ 0 (bitLength a)) (Num <$> before)) h).
Proof.
  split.
  - unfold Uint1Array_keys, ret. rewrite keys_from_seqZ. f_equal.
    destruct (Z.le_gt_cases 0 (bitLength a)).
    + rewrite Z2Nat.id by lia. reflexivity.
    + destruct (bitLength a); try lia. reflexivity.
  - intros Hv. pose proof Hv as (buf & Hbuf & Hoff & Hlen & Hwin).
    exists (elements_of h a). split; [apply iterator_elements, Hv |].
    split; [apply (iterator_elements h a Hv) |].
    rewrite (elements_of_lookup _ _ _ Hbuf).
    unfold Uint1Array_entries. rewrite <- (window_bits_length buf a).
    rewrite (entries_from_spec h a buf Hbuf Hoff Hwin).
    + rewrite keys_from_seqZ, window_bits_length, Z2Nat.id by lia. reflexivity.
    + intros k x Hk. apply element_at_lookup, Hk.
Qed.

Lemma generators_spec_witness :
  exists before : list Z,
    Uint1Array_iterator {| bitOffset := 1; bitLength := 5; internal := {| buffer := 0 |} |}
      [[172]] = Normal (Num <$> before) [[172]] /\
    Uint1Array_values {| bitOffset := 1; bitLength := 5; internal := {| buffer := 0 |} |}
      [[172]] = Normal (Num <$> before) [[172]] /\
    Uint1Array_entries {| bitOffset := 1; bitLength := 5; internal := {| buffer := 0 |} |}
      [[172]] = Normal (zip (seqZ 0 5) (Num <$> before)) [[172]].
Proof.
  apply (proj2 (generators_spec [[172]]
                  {| bitOffset := 1; bitLength := 5; internal := {| buffer := 0 |} |})).
  exists [172]. simpl. repeat split; lia.
Defined.

Lemma consistent_flip (compareFn : Z -> Z -> Z) (x y : Z) :
  consistent_comparator compareFn ->
  x = 0 \/ x = 1 -> y = 0 \/ y = 1 ->
  0 < compareFn x y -> compareFn y x <= 0.
Proof. intros Hc Hx Hy Hgt. apply (Hc x y Hx Hy) in Hgt. lia. Qed.

Lemma sort_insert_sorted_by (compareFn : Z -> Z -> Z) (x : Z) (l : list Z) :
  consistent_comparator compareFn ->
  x = 0 \/ x = 1 -> Forall (fun b => b = 0 \/ b = 1) l ->
  Sorted (fun u v => compareFn u v <= 0) l ->
  Sorted (fun u v => compareFn u v <= 0) (sort_insert compareFn x l).
Proof.
  intros Hc Hx. induction l as [| y l IH]; intros Hbits Hs; simpl.
  - repeat constructor.
  - apply Forall_cons in Hbits as [Hy Hbits].
    destruct (Z.gtb_spec (compareFn x y) 0) as [Hgt | Hle].
    + apply Sorted_inv in Hs as [Hs Hhd]. constructor; [apply IH; assumption |].
      destruct l as [| z l]; simpl.
      * constructor. apply consistent_flip; trivial.
      * destruct (Z.gtb_spec (compareFn x z) 0); constructor.
        -- apply HdRel_inv in Hhd. exact Hhd.
        -- apply consistent_flip; trivial.
    + constructor; [exact Hs |]. constructor. lia.
Qed.

Lemma insertion_sort_sorted_by (compareFn : Z -> Z -> Z) (l : list Z) :
  consistent_comparator compareFn ->
  Forall (fun b => b = 0 \/ b = 1) l ->
  Sorted (fun u v => compareFn u v <= 0) (foldr (sort_insert compareFn) [] l).
Proof.
  intros Hc. induction 1 as [| x l Hx Hl IH]; simpl; [constructor |].
  apply sort_insert_sorted_by; trivial.
  apply (Permutation_Forall (insertion_sort_perm compareFn l)), Hl.
Qed.

Lemma insertion_sort_all_equal (compareFn : Z -> Z -> Z) (l : list Z) :
  consistent_comparator compareFn ->
  compareFn 0 1 = 0 ->
  Forall (fun b => b = 0 \/ b = 1) l ->
  foldr (sort_insert compareFn) [] l = l.
Proof.
  intros Hc H01.
  assert (H10 : compareFn 1 0 = 0).
  { destruct (Hc 0 1 ltac:(auto) ltac:(auto)) as [_ Ha].
    destruct (Hc 1 0 ltac:(auto) ltac:(auto)) as [_ Hb]. lia. }
  assert (Hle : forall x y, x = 0 \/ x = 1 -> y = 0 \/ y = 1 -> compareFn x y = 0).
  { intros x y [-> | ->] [-> | ->]; trivial; apply (Hc _ 0); auto. }
  induction 1 as [| x l Hx Hl IH]; simpl; [reflexivity |].
  rewrite IH. destruct l as [| y l]; [reflexivity |]. simpl.
  apply Forall_cons in Hl as [Hy _]. rewrite (Hle x y Hx Hy). reflexivity.
Qed.

(** X24. [sort(compareFn)] on a valid vector, for a comparator without effects
    that is consistent on 0 and 1 (the default [a - b], a descending one,
    or one that calls all elements equal): it returns the vector itself;
    the elements afterwards are a permutation of the elements before in
    which no element is followed by one the comparator puts before it, and
    they are the elements before, unchanged, when the comparator calls 0
    and 1 equal; every vector stays valid. *)
Theorem sort_consistent_comparator (h : list (list Z)) (a : Uint1Array)
    (compareFn : option (Z -> Z -> Z)) :
  let cmp := default default_compareFn compareFn in
  valid h a ->
  consistent_comparator cmp ->
  exists (before after : list Z) (h' : list (list Z)),
    Uint1Array_iterator a h = Normal (Num <$> before) h /\
    Uint1Array_sort a compareFn h = Normal a h' /\
    Uint1Array_iterator a h' = Normal (Num <$> after) h' /\
    Permutation before after /\
    Sorted (fun u v => cmp u v <= 0) after /\
    (cmp 0 1 = 0 -> after = before) /\
    (forall v : Uint1Array, valid h v -> valid h' v).
Proof.
  intros cmp Hv Hc. pose proof Hv as (buf & Hbuf & Hoff & Hlen & Hwin).
  set (after := foldr (sort_insert cmp) [] (elements_of h a)).
  assert (Hperm : Permutation (elements_of h a) after) by apply insertion_sort_perm.
  assert (Hn : length (elements_of h a) = Z.to_nat (bitLength a)).
  { rewrite (elements_of_lookup _ _ _ Hbuf). apply window_bits_length. }
  destruct (Uint1Array_set_elements h a (Num <$> after) None Hv)
    as (h' & buf0 & buf' & Hset & Hbuf0 & -> & Hlen' & Hel & _).
  { simpl. lia. }
  { simpl. rewrite length_fmap, <- (Permutation_length Hperm), Hn. lia. }
  exists (elements_of h a), after, (<[buffer (internal a) := buf']> h).
  split; [apply iterator_elements, Hv |].
  split.
  { unfold Uint1Array_sort. fold cmp.
    rewrite (bind_Normal _ _ _ _ _ (iterator_elements h a Hv)).
    rewrite Array_sort_Num. fold after.
    rewrite (bind_Normal _ _ _ _ _ Hset). reflexivity. }
  split.
  { rewrite iterator_elements by (eapply valid_insert; eassumption).
    rewrite Hel. simpl.
    rewrite and1_Num_bits by (apply (Permutation_Forall Hperm), elements_of_bits).
    rewrite length_fmap, <- (Permutation_length Hperm), drop_all, app_nil_r.
    reflexivity. }
  split; [exact Hperm |].
  split; [apply insertion_sort_sorted_by; [exact Hc | apply elements_of_bits] |].
  split; [intros H01; apply insertion_sort_all_equal; trivial; apply elements_of_bits |].
  intros v. eapply valid_insert; eassumption.
Qed.

Lemma sort_consistent_comparator_witness :
  exists (before after : list Z) (h' : list (list Z)),
    Uint1Array_iterator {| bitOffset := 1; bitLength := 5; internal := {| buffer := 0 |} |}
      [[172]] = Normal (Num <$> before) [[172]] /\
    Uint1Array_sort {| bitOffset := 1; bitLength := 5; internal := {| buffer := 0 |} |}
      (Some (fun x y => y - x)) [[172]]
    = Normal {| bitOffset := 1; bitLength := 5; internal := {| buffer := 0 |} |} h' /\
    Uint1Array_iterator {| bitOffset := 1; bitLength := 5; internal := {| buffer := 0 |} |} h'
    = Normal (Num <$> after) h' /\
    Permutation before after /\
    Sorted (fun u v => v - u <= 0) after /\
    (1 - 0 = 0 -> after = before) /\
    (forall v : Uint1Array, valid [[172]] v -> valid h' v).
Proof.
  apply (sort_consistent_comparator [[172]]
           {| bitOffset := 1; bitLength := 5; internal := {| buffer := 0 |} |}
           (Some (fun x y => y - x))).
  - exists [172]. simpl. repeat split; lia.
  - intros x y Hx Hy. simpl. lia.
Defined.
